(** * pack_to_single_html: inlining local images as data URIs

  A shallow embedding of [pack_to_single_html.py] and the properties of
  its one pass over the [<img>] elements of a page.

  The script leans on the Python standard library and on BeautifulSoup.
  What the script only calls is kept apart from what it does:

  - [Base64] models [base64.b64encode] (RFC 4648, standard alphabet,
    padded) together with a strict decoder, and proves the round trip;
  - [World] gathers the file system and the library functions whose
    result depends on the platform ([os.path], [mimetypes], the parser);
  - [Inliner] is the script itself: [to_data_uri], the body of the loop
    over the images, the loop, and [main];
  - [Posix] and [Site] give one concrete world, used to run the model;
  - [Tally] and [Cases] name what the statements on the whole loop count
    and the branches of its body. *)

From Stdlib Require Import ZArith Lia List Ascii String.
From Stdlib.Strings Require Import Byte.
From stdpp Require Import gmap strings pretty.
Import ListNotations.

Local Open Scope string_scope.
Local Open Scope list_scope.
Local Open Scope Z_scope.

(** ** Base64 *)

Module Base64.

Definition alphabet : list byte :=
  list_byte_of_string
    "ABCDEFGHIJKLMNOPQRSTUVWXYZabcdefghijklmnopqrstuvwxyz0123456789+/".

Definition pad : byte := "="%byte.

Definition byte_val (b : byte) : Z := Z.of_N (Byte.to_N b).

Definition byte_of_Z (z : Z) : byte :=
  match Byte.of_N (Z.to_N z) with
  | Some b => b
  | None => "000"%byte
  end.

Definition char_of_sextet (n : Z) : byte := nth (Z.to_nat n) alphabet pad.

Fixpoint index_from (i : Z) (c : byte) (l : list byte) : option Z :=
  match l with
  | [] => None
  | x :: l' => if Byte.eqb x c then Some i else index_from (i + 1) c l'
  end.

Definition sextet_of_char (c : byte) : option Z := index_from 0 c alphabet.

(** Three input bytes make one 24-bit group, cut into four sextets. *)
Definition enc3 (a b c : Z) : list byte :=
  let n := a * 65536 + b * 256 + c in
  [ char_of_sextet (n / 262144);
    char_of_sextet ((n / 4096) mod 64);
    char_of_sextet ((n / 64) mod 64);
    char_of_sextet (n mod 64) ].

(** Two trailing bytes: 16 bits, padded with two zero bits, then [=]. *)
Definition enc2 (a b : Z) : list byte :=
  let n := (a * 256 + b) * 4 in
  [ char_of_sextet (n / 4096);
    char_of_sextet ((n / 64) mod 64);
    char_of_sextet (n mod 64);
    pad ].

(** One trailing byte: 8 bits, padded with four zero bits, then [==]. *)
Definition enc1 (a : Z) : list byte :=
  let n := a * 16 in
  [ char_of_sextet (n / 64); char_of_sextet (n mod 64); pad; pad ].

(** [base64.b64encode]: bytes to bytes. *)
Fixpoint b64encode (bs : list byte) : list byte :=
  match bs with
  | [] => []
  | [a] => enc1 (byte_val a)
  | [a; b] => enc2 (byte_val a) (byte_val b)
  | a :: b :: c :: rest =>
      enc3 (byte_val a) (byte_val b) (byte_val c) ++ b64encode rest
  end.

Definition dec3 (s0 s1 s2 s3 : Z) : list byte :=
  let n := s0 * 262144 + s1 * 4096 + s2 * 64 + s3 in
  [ byte_of_Z (n / 65536); byte_of_Z ((n / 256) mod 256);
    byte_of_Z (n mod 256) ].

Definition dec2 (s0 s1 s2 : Z) : list byte :=
  let n := (s0 * 4096 + s1 * 64 + s2) / 4 in
  [ byte_of_Z (n / 256); byte_of_Z (n mod 256) ].

Definition dec1 (s0 s1 : Z) : list byte :=
  [ byte_of_Z ((s0 * 64 + s1) / 16) ].

(** A strict decoder: groups of four characters of the alphabet, padding
    only in the last group.  It is the yardstick the encoder is measured
    against; the script itself never decodes. *)
Fixpoint b64decode (cs : list byte) : option (list byte) :=
  match cs with
  | [] => Some []
  | c0 :: c1 :: c2 :: c3 :: rest =>
      match sextet_of_char c0, sextet_of_char c1 with
      | Some s0, Some s1 =>
          if Byte.eqb c3 pad then
            match rest with
            | [] =>
                if Byte.eqb c2 pad then Some (dec1 s0 s1)
                else match sextet_of_char c2 with
                     | Some s2 => Some (dec2 s0 s1 s2)
                     | None => None
                     end
            | _ :: _ => None
            end
          else
            match sextet_of_char c2, sextet_of_char c3, b64decode rest with
            | Some s2, Some s3, Some tl => Some (dec3 s0 s1 s2 s3 ++ tl)
            | _, _, _ => None
            end
      | _, _ => None
      end
  | _ => None
  end.

(** [bytes.decode("ascii")]: fails on any byte above 127. *)
Definition is_ascii (b : byte) : bool := byte_val b <? 128.

Definition decode_ascii (bs : list byte) : option string :=
  if forallb is_ascii bs then Some (string_of_list_byte bs) else None.

(** The 64 sextets, and what is checked of the alphabet at each. *)

Definition sextets : list Z := map Z.of_nat (seq 0 64).

Definition sextet_ok (n : Z) : bool :=
  match sextet_of_char (char_of_sextet n) with
  | Some m => (m =? n) && is_ascii (char_of_sextet n)
              && negb (Byte.eqb (char_of_sextet n) pad)
  | None => false
  end.

End Base64.

(** ** The world the script runs in *)

(** A Python exception, as far as the script looks at it: the text that
  [str(e)] yields when the handler prints it. *)
Definition exn := string.

Inductive result (A : Type) : Type :=
| Ok (a : A)
| Raise (e : exn).
Arguments Ok {A} a.
Arguments Raise {A} e.

(** What lines 80-81 do to the output file: [open(p, "w")] creates or
  empties the file before anything is written to it, so a failure of the
  [with] block after the file was opened leaves a file behind, with
  whatever had reached it. *)
Inductive write_outcome :=
| Wrote
| OpenFailed (e : exn)
| WriteFailed (e : exn) (remains : string).

(** The attributes of one [<img>] element, as the [attrs] dict of a
  BeautifulSoup [Tag]. *)
Abbreviation tag := (gmap string string).

Module World.

Record t := {
  (** [os.path.exists] *)
  path_exists : string -> bool;
  (** [open(p, "rb")] followed by [f.read()] *)
  read_bytes : string -> result (list byte);
  (** [open(p, "r", encoding="utf-8", errors="ignore")] and [f.read()] *)
  read_text : string -> result string;
  (** [open(p, "w", encoding="utf-8")] and [f.write(s)] *)
  write_text : string -> string -> write_outcome;
  (** [os.path.abspath], [os.path.dirname], [os.path.join],
      [os.path.normpath] *)
  abspath : string -> string;
  dirname : string -> string;
  join : string -> string -> string;
  normpath : string -> string;
  (** first component of [mimetypes.guess_type] *)
  guess_type : string -> option string;
  (** [BeautifulSoup(html, "html.parser").find_all("img")]: the
      attributes of the [img] elements, in document order *)
  find_all_img : string -> list tag;
  (** [str(soup)] once the [img] elements of the soup parsed from the
      given text carry the given attributes *)
  soup_str : string -> list tag -> string
}.

End World.

(** ** The script *)

Module Inliner.
Import World.

(** [s.startswith(p)] *)
Definition startswith (s p : string) : bool := String.prefix p s.

(** [s.startswith((p1, ..., pn))] *)
Definition startswith_any (s : string) (ps : list string) : bool :=
  existsb (startswith s) ps.

(** Python's truth value of a [str] *)
Definition truthy (s : string) : bool := negb (String.eqb s EmptyString).

(** The local variables of [main] that the loop updates, and what has
    been printed so far. *)
Record state := {
  changed : Z;
  skipped : Z;
  printed : list string
}.

Definition init : state := {| changed := 0; skipped := 0; printed := [] |}.

Definition print (line : string) (st : state) : state :=
  {| changed := changed st; skipped := skipped st;
     printed := printed st ++ [line] |}.

Definition incr_changed (st : state) : state :=
  {| changed := changed st + 1; skipped := skipped st;
     printed := printed st |}.

Definition incr_skipped (st : state) : state :=
  {| changed := changed st; skipped := skipped st + 1;
     printed := printed st |}.

Definition data_uri (mime b64 : string) : string :=
  "data:" +:+ mime +:+ ";base64," +:+ b64.

Definition mime_of (w : World.t) (path : string) : string :=
  match guess_type w path with
  | Some mime => if truthy mime then mime else "application/octet-stream"
  | None => "application/octet-stream"
  end.

Definition to_data_uri (w : World.t) (path : string) : result string :=
  let mime := mime_of w path in
  match read_bytes w path with
  | Raise e => Raise e
  | Ok b =>
      match Base64.decode_ascii (Base64.b64encode b) with
      | None => Raise "'ascii' codec can't decode byte"
      | Some b64 => Ok (data_uri mime b64)
      end
  end.

(** Lines 68-75: the [data-full] attribute of the element. *)
Definition inline_data_full (w : World.t) (base_dir : string)
    (st : state) (img : tag) : state * tag :=
  match img !! "data-full" with
  | None => (st, img)
  | Some data_full =>
      if truthy data_full
         && negb (startswith_any data_full ["http://"; "https://"; "data:"])
      then
        let full_path := normpath w (join w base_dir data_full) in
        if path_exists w full_path then
          match to_data_uri w full_path with
          | Ok uri => (st, <["data-full" := uri]> img)
          | Raise e =>
              (print ("[warn] failed to inline data-full " +:+ full_path
                      +:+ ": " +:+ e) st, img)
          end
        else (st, img)
      else (st, img)
  end.

(** Lines 48-75: the body of the loop, for one element.  Each [continue]
    of the source is a branch that returns at once. *)
Definition process_img (w : World.t) (base_dir : string)
    (st : state) (img : tag) : state * tag :=
  let src := default EmptyString (img !! "src") in
  if negb (truthy src) || startswith src "data:" then (st, img)
  else if startswith src "http://" || startswith src "https://" then
    (incr_skipped st, img)
  else
    let local_path := normpath w (join w base_dir src) in
    if negb (path_exists w local_path) then
      (incr_skipped
         (print ("[warn] file not found for <img src='" +:+ src
                 +:+ "'> -> " +:+ local_path) st), img)
    else
      let '(st1, img1) :=
        match to_data_uri w local_path with
        | Ok uri => (incr_changed st, <["src" := uri]> img)
        | Raise e =>
            (incr_skipped
               (print ("[warn] failed to inline " +:+ local_path
                       +:+ ": " +:+ e) st), img)
        end in
      inline_data_full w base_dir st1 img1.

(** Line 47: the loop over the elements, in document order. *)
Fixpoint process_imgs (w : World.t) (base_dir : string)
    (st : state) (imgs : list tag) : state * list tag :=
  match imgs with
  | [] => (st, [])
  | img :: rest =>
      let '(st1, img1) := process_img w base_dir st img in
      let '(st2, rest2) := process_imgs w base_dir st1 rest in
      (st2, img1 :: rest2)
  end.

(** How the process ends: [sys.exit(code)] or falling off the end of
    [main] (code 0), or an exception nobody catches. *)
Inductive status :=
| Exited (code : Z)
| Uncaught (e : exn).

(** The exit status of the process: the interpreter ends with status 1
    after an exception nobody caught. *)
Definition exit_code (s : status) : Z :=
  match s with
  | Exited code => code
  | Uncaught _ => 1
  end.

(** What a run leaves behind: the lines on standard output, how it ended,
    and the files it created or overwrote, each with the content left in
    it. *)
Record run := {
  stdout : list string;
  ending : status;
  written : list (string * string)
}.

Definition usage : string :=
  "Usage: python pack_to_single_html.py input.html output.single.html".

(** [argv] is [sys.argv]: the script's name, then the arguments. *)
Definition main (w : World.t) (argv : list string) : run :=
  if (length argv <? 3)%nat then
    {| stdout := [usage]; ending := Exited 1; written := [] |}
  else
    let in_path := nth 1 argv EmptyString in
    let out_path := nth 2 argv EmptyString in
    if negb (path_exists w in_path) then
      {| stdout := ["Error: input not found: " +:+ in_path];
         ending := Exited 2; written := [] |}
    else
      match read_text w in_path with
      | Raise e => {| stdout := []; ending := Uncaught e; written := [] |}
      | Ok html =>
          let base_dir := dirname w (abspath w in_path) in
          let '(st, imgs) :=
            process_imgs w base_dir init (find_all_img w html) in
          let page := soup_str w html imgs in
          match write_text w out_path page with
          | OpenFailed e =>
              {| stdout := printed st; ending := Uncaught e;
                 written := [] |}
          | WriteFailed e remains =>
              {| stdout := printed st; ending := Uncaught e;
                 written := [(out_path, remains)] |}
          | Wrote =>
              {| stdout := printed st ++
                   [ "Done. Inlined images: " +:+ pretty (changed st)
                     +:+ ", skipped: " +:+ pretty (skipped st);
                     "Written: " +:+ out_path ];
                 ending := Exited 0;
                 written := [(out_path, page)] |}
          end
      end.

(** *** Names for what the statements below talk about *)

(** The path the script looks up for a reference [ref]. *)
Definition resolved (w : World.t) (base_dir ref : string) : string :=
  normpath w (join w base_dir ref).

(** A reference that passes every exclusion test of the script: not empty,
    and none of the three prefixes. *)
Definition local_candidate (ref : string) : bool :=
  truthy ref && negb (startswith_any ref ["http://"; "https://"; "data:"]).

Definition not_found_warning (w : World.t) (base_dir src : string) : string :=
  "[warn] file not found for <img src='" +:+ src +:+ "'> -> "
  +:+ resolved w base_dir src.

Definition failed_warning (w : World.t) (base_dir src : string) (e : exn)
  : string :=
  "[warn] failed to inline " +:+ resolved w base_dir src +:+ ": " +:+ e.

(** [s] is [p] followed by something: the same characters, case and all. *)
Definition has_prefix (p s : string) : Prop := exists t, s = p +:+ t.

(** A reference that is not empty and begins with none of [http://],
    [https://] and [data:], whatever else it may look like. *)
Definition unexcluded (ref : string) : Prop :=
  ref <> EmptyString
  /\ ~ has_prefix "http://" ref
  /\ ~ has_prefix "https://" ref
  /\ ~ has_prefix "data:" ref.

(** The ways the handling of [src] ends in [continue] (lines 50, 53 and
    59), in the same terms. *)
Definition src_ends_in_continue (w : World.t) (base_dir : string) (img : tag)
  : Prop :=
  img !! "src" = None
  \/ img !! "src" = Some EmptyString
  \/ (exists s, img !! "src" = Some s
                 /\ (has_prefix "data:" s \/ has_prefix "http://" s
                     \/ has_prefix "https://" s))
  \/ (exists s, img !! "src" = Some s /\ unexcluded s
                 /\ path_exists w (resolved w base_dir s) = false).

End Inliner.

(** ** One concrete world

    [Posix] follows [posixpath] for the path functions; [Site] is a small
    directory to run the script in. *)

Module Posix.

Definition slash : Ascii.ascii := "/"%char.

(** [s.split("/")] *)
Fixpoint split_slash (s : string) : list string :=
  match s with
  | EmptyString => [EmptyString]
  | String c s' =>
      if Ascii.eqb c slash then EmptyString :: split_slash s'
      else match split_slash s' with
           | [] => [String c EmptyString]
           | x :: xs => String c x :: xs
           end
  end.

Fixpoint endswith_slash (s : string) : bool :=
  match s with
  | EmptyString => false
  | String c EmptyString => Ascii.eqb c slash
  | String _ s' => endswith_slash s'
  end.

Fixpoint all_slashes (s : string) : bool :=
  match s with
  | EmptyString => true
  | String c s' => Ascii.eqb c slash && all_slashes s'
  end.

(** [posixpath.join(a, b)] *)
Definition join (a b : string) : string :=
  if String.prefix "/" b then b
  else if String.eqb a EmptyString || endswith_slash a then a +:+ b
  else a +:+ "/" +:+ b.

(** One turn of the loop of [posixpath.normpath] over the components. *)
Definition norm_step (initial_slashes : nat) (new_comps : list string)
    (comp : string) : list string :=
  if String.eqb comp EmptyString || String.eqb comp "." then new_comps
  else if negb (String.eqb comp "..")
          || (Nat.eqb initial_slashes 0 && Nat.eqb (length new_comps) 0)
          || (negb (Nat.eqb (length new_comps) 0)
              && String.eqb (List.last new_comps EmptyString) "..")
  then new_comps ++ [comp]
  else removelast new_comps.

(** [posixpath.normpath] *)
Definition normpath (path : string) : string :=
  if String.eqb path EmptyString then "."
  else
    let initial_slashes :=
      if String.prefix "/" path then
        if String.prefix "//" path && negb (String.prefix "///" path)
        then 2%nat else 1%nat
      else 0%nat in
    let comps := fold_left (norm_step initial_slashes) (split_slash path) [] in
    let body := String.concat "/" comps in
    let path' :=
      match initial_slashes with
      | 0%nat => body
      | 1%nat => "/" +:+ body
      | _ => "//" +:+ body
      end in
    if String.eqb path' EmptyString then "." else path'.

(** [s.rstrip("/")] *)
Definition rstrip_slash (s : string) : string :=
  let keep := fix keep (comps : list string) : list string :=
    match comps with
    | [] => []
    | c :: rest =>
        match keep rest with
        | [] => if String.eqb c EmptyString then [] else [c]
        | kept => c :: kept
        end
    end in
  String.concat "/" (keep (split_slash s)).

(** [posixpath.dirname] *)
Definition dirname (p : string) : string :=
  let comps := split_slash p in
  let head :=
    match removelast comps with
    | [] => EmptyString
    | front => String.concat "/" front +:+ "/"
    end in
  if negb (String.eqb head EmptyString) && negb (all_slashes head)
  then rstrip_slash head else head.

(** [posixpath.abspath], for a process whose working directory is [cwd] *)
Definition abspath (cwd p : string) : string :=
  normpath (if String.prefix "/" p then p else join cwd p).

(** The text after the last dot of a component, if any. *)
Fixpoint after_last_dot (s : string) : option string :=
  match s with
  | EmptyString => None
  | String c s' =>
      match after_last_dot s' with
      | Some e => Some e
      | None => if Ascii.eqb c "."%char then Some s' else None
      end
  end.

Definition extension (path : string) : option string :=
  after_last_dot (List.last (split_slash path) EmptyString).

(** A cut of the table of [mimetypes], by extension. *)
Definition guess_type (path : string) : option string :=
  match extension path with
  | Some "png" => Some "image/png"
  | Some "jpg" | Some "jpeg" => Some "image/jpeg"
  | Some "gif" => Some "image/gif"
  | Some "webp" => Some "image/webp"
  | Some "svg" => Some "image/svg+xml"
  | _ => None
  end.

End Posix.

Module Site.
Import World.

Inductive entry :=
| File (content : list byte)
| Dir.

(** The directory [/site], in which the process is started. *)
Definition cwd : string := "/site".

Definition logo_png : list byte := list_byte_of_string "0123456789".
Definition big_png : list byte := list_byte_of_string "Man".

Definition dquote : string := String (Ascii.ascii_of_nat 34) EmptyString.

Definition page_html : string :=
  "<img src='logo.png'><img src='https://example.com/x.png'>".

Definition files : gmap string entry :=
  list_to_map
    [ ("/site", Dir);
      ("/site/page.html", File (list_byte_of_string page_html));
      ("/site/logo.png", File logo_png);
      ("/site/big.png", File big_png);
      ("/site/photos", Dir);
      ("/site/HTTP:/host/x", File big_png) ].

(** [open(p, "rb")] and [read]: a relative path is looked up from [cwd];
    the text of the exception names the path as it was passed. *)
Definition open_rb (p : string) : result (list byte) :=
  match files !! Posix.abspath cwd p with
  | Some (File content) => Ok content
  | Some Dir => Raise ("[Errno 21] Is a directory: '" +:+ p +:+ "'")
  | None => Raise ("[Errno 2] No such file or directory: '" +:+ p +:+ "'")
  end.

Definition open_r (p : string) : result string :=
  match open_rb p with
  | Ok content => Ok (string_of_list_byte content)
  | Raise e => Raise e
  end.

(** [open(p, "w")] and [write]: the directory of the file has to be
    there, and the path must not be a directory. *)
Definition open_w (p : string) : write_outcome :=
  match files !! Posix.abspath cwd p with
  | Some Dir => OpenFailed ("[Errno 21] Is a directory: '" +:+ p +:+ "'")
  | _ =>
      match files !! Posix.dirname (Posix.abspath cwd p) with
      | Some Dir => Wrote
      | Some (File _) =>
          OpenFailed ("[Errno 20] Not a directory: '" +:+ p +:+ "'")
      | None =>
          OpenFailed ("[Errno 2] No such file or directory: '" +:+ p +:+ "'")
      end
  end.

(** The [img] elements of the one page of the site. *)
Definition page_imgs : list tag :=
  [ {[ "src" := "logo.png" ]}; {[ "src" := "https://example.com/x.png" ]} ].

Definition render_attr (kv : string * string) : string :=
  " " +:+ kv.1 +:+ "=" +:+ dquote +:+ kv.2 +:+ dquote.

Definition render_img (img : tag) : string :=
  "<img" +:+ String.concat EmptyString (map render_attr (map_to_list img))
  +:+ "/>".

Definition world : World.t := {|
  path_exists := fun p =>
    match files !! Posix.abspath cwd p with Some _ => true | None => false end;
  read_bytes := open_rb;
  read_text := open_r;
  write_text := fun p _ => open_w p;
  abspath := Posix.abspath cwd;
  dirname := Posix.dirname;
  join := Posix.join;
  normpath := Posix.normpath;
  guess_type := Posix.guess_type;
  find_all_img := fun html =>
    if String.eqb html page_html then page_imgs else [];
  soup_str := fun _ imgs => String.concat EmptyString (map render_img imgs)
|}.

(** The same site on a full disk: the output file can be opened, which
    empties it, and then nothing can be written to it. *)
Definition world_disk_full : World.t := {|
  path_exists := path_exists world;
  read_bytes := read_bytes world;
  read_text := read_text world;
  write_text := fun _ _ =>
    WriteFailed "[Errno 28] No space left on device" EmptyString;
  abspath := abspath world;
  dirname := dirname world;
  join := join world;
  normpath := normpath world;
  guess_type := guess_type world;
  find_all_img := find_all_img world;
  soup_str := soup_str world
|}.

(** The directory of the page, as [main] computes it. *)
Definition base_dir : string := "/site".

(** A remote thumbnail, and a full picture whose reference is written
    with an upper-case scheme; a file of that name is in the site. *)
Definition upper_case_full : tag :=
  <["data-full" := "HTTP://host/x"]> {[ "src" := "https://example.com/x.png" ]}.

(** An element of a picture gallery: a thumbnail in [src] (if any) and
    the full picture, a local file, in [data-full]. *)
Definition gallery_img (src : option string) : tag :=
  match src with
  | Some s => <["data-full" := "big.png"]> {[ "src" := s ]}
  | None => {[ "data-full" := "big.png" ]}
  end.

(** What [to_data_uri] makes of [/site/big.png]. *)
Definition big_png_uri : string := "data:image/png;base64,TWFu".

End Site.

(** ** Counting over a pass *)

Module Tally.
Import Inliner.

(** The elements the loop does not pass over at line 50: a [src] that is
    neither missing, empty, nor a [data:] URI. *)
Definition src_to_handle (img : tag) : bool :=
  let src := default EmptyString (img !! "src") in
  negb (negb (truthy src) || startswith src "data:").

(** Whether the [src] of an element differs after the pass. *)
Definition src_rewritten (before after : tag) : bool :=
  negb (bool_decide (after !! "src" = before !! "src")).

Fixpoint count_rewritten (befores afters : list tag) : Z :=
  match befores, afters with
  | b :: befores', a :: afters' =>
      (if src_rewritten b a then 1 else 0) + count_rewritten befores' afters'
  | _, _ => 0
  end.

Definition count_to_handle (imgs : list tag) : Z :=
  Z.of_nat (length (List.filter src_to_handle imgs)).

(** A line in the form the script gives its warnings. *)
Definition warn_line (line : string) : bool := startswith line "[warn] ".

(** What one element may become: same attribute names, and only [src] and
    [data-full] may differ, each either kept or turned into a [data:]
    URI. *)
Definition kept_or_data_uri (before after : option string) : Prop :=
  after = before
  \/ exists uri, after = Some uri /\ startswith uri "data:" = true.

Definition element_frame (before after : tag) : Prop :=
  dom after = dom before
  /\ (forall k, k <> "src" -> k <> "data-full" -> after !! k = before !! k)
  /\ kept_or_data_uri (before !! "src") (after !! "src")
  /\ kept_or_data_uri (before !! "data-full") (after !! "data-full").

End Tally.

(** ** The branches of the loop body

    One constructor for each way through [inline_data_full] and through
    [process_img], with the tests that lead there. *)

Module Cases.
Import World Inliner.

Section WithWorld.
Context (w : World.t) (base_dir : string).

Local Abbreviation resolved := (Inliner.resolved w base_dir).

Definition data_full_warning (ref : string) (e : exn) : string :=
  "[warn] failed to inline data-full " +:+ resolved ref +:+ ": " +:+ e.

Inductive data_full_case (st : state) (img : tag) : state * tag -> Prop :=
| DfSkip :
    img !! "data-full" = None
    \/ (exists ref, img !! "data-full" = Some ref
                    /\ (local_candidate ref = false
                        \/ path_exists w (resolved ref) = false)) ->
    data_full_case st img (st, img)
| DfInlined ref uri :
    img !! "data-full" = Some ref ->
    local_candidate ref = true ->
    path_exists w (resolved ref) = true ->
    to_data_uri w (resolved ref) = Ok uri ->
    data_full_case st img (st, <["data-full" := uri]> img)
| DfFailed ref e :
    img !! "data-full" = Some ref ->
    local_candidate ref = true ->
    path_exists w (resolved ref) = true ->
    to_data_uri w (resolved ref) = Raise e ->
    data_full_case st img (print (data_full_warning ref e) st, img).

Inductive src_case (st : state) (img : tag) : state * tag -> Prop :=
| SrcPassedOver :
    img !! "src" = None \/ img !! "src" = Some EmptyString
    \/ (exists s, img !! "src" = Some s /\ startswith s "data:" = true) ->
    src_case st img (st, img)
| SrcRemote src :
    img !! "src" = Some src ->
    startswith src "http://" = true \/ startswith src "https://" = true ->
    src_case st img (incr_skipped st, img)
| SrcMissing src :
    img !! "src" = Some src ->
    local_candidate src = true ->
    path_exists w (resolved src) = false ->
    src_case st img
      (incr_skipped (print (not_found_warning w base_dir src) st), img)
| SrcInlined src uri :
    img !! "src" = Some src ->
    local_candidate src = true ->
    path_exists w (resolved src) = true ->
    to_data_uri w (resolved src) = Ok uri ->
    src_case st img
      (inline_data_full w base_dir (incr_changed st) (<["src" := uri]> img))
| SrcFailed src e :
    img !! "src" = Some src ->
    local_candidate src = true ->
    path_exists w (resolved src) = true ->
    to_data_uri w (resolved src) = Raise e ->
    src_case st img
      (inline_data_full w base_dir
         (incr_skipped (print (failed_warning w base_dir src e) st)) img).

End WithWorld.
End Cases.

(** ** Base64: the round trip *)

Module Base64Facts.
Import Base64.

Lemma sextet_in n : 0 <= n < 64 -> In n sextets.
Proof.
  intros Hn. unfold sextets. apply in_map_iff.
  exists (Z.to_nat n). split; [lia|]. apply in_seq. lia.
Qed.

Lemma sextets_ok : forallb sextet_ok sextets = true.
Proof. vm_compute. reflexivity. Qed.

Lemma sextet_ok_at n : 0 <= n < 64 -> sextet_ok n = true.
Proof.
  intros Hn. pose proof sextets_ok as H.
  rewrite forallb_forall in H. apply H, sextet_in, Hn.
Qed.

Lemma sextet_of_char_of_sextet n :
  0 <= n < 64 -> sextet_of_char (char_of_sextet n) = Some n.
Proof.
  intros Hn. pose proof (sextet_ok_at n Hn) as H. unfold sextet_ok in H.
  destruct (sextet_of_char (char_of_sextet n)) as [m|]; [|discriminate].
  apply andb_prop in H as [H _]. apply andb_prop in H as [H _].
  apply Z.eqb_eq in H. now subst.
Qed.

Lemma char_of_sextet_ascii n :
  0 <= n < 64 -> is_ascii (char_of_sextet n) = true.
Proof.
  intros Hn. pose proof (sextet_ok_at n Hn) as H. unfold sextet_ok in H.
  destruct (sextet_of_char (char_of_sextet n)); [|discriminate].
  apply andb_prop in H as [H _]. now apply andb_prop in H as [_ H].
Qed.

Lemma char_of_sextet_not_pad n :
  0 <= n < 64 -> Byte.eqb (char_of_sextet n) pad = false.
Proof.
  intros Hn. pose proof (sextet_ok_at n Hn) as H. unfold sextet_ok in H.
  destruct (sextet_of_char (char_of_sextet n)); [|discriminate].
  apply andb_prop in H as [_ H]. now apply negb_true_iff in H.
Qed.

Lemma sextet_of_pad : sextet_of_char pad = None.
Proof. vm_compute. reflexivity. Qed.

(** *** Bytes as numbers *)

Lemma byte_val_range b : 0 <= byte_val b < 256.
Proof.
  unfold byte_val. pose proof (Byte.to_N_bounded b). lia.
Qed.

Lemma byte_of_Z_val b : byte_of_Z (byte_val b) = b.
Proof.
  unfold byte_of_Z, byte_val. rewrite N2Z.id, Byte.of_to_N. reflexivity.
Qed.

(** *** One group at a time *)

Ltac sextet_range := Z.div_mod_to_equations; lia.

Lemma dec3_enc3 a b c :
  0 <= a < 256 -> 0 <= b < 256 -> 0 <= c < 256 ->
  let n := a * 65536 + b * 256 + c in
  dec3 (n / 262144) ((n / 4096) mod 64) ((n / 64) mod 64) (n mod 64)
  = [byte_of_Z a; byte_of_Z b; byte_of_Z c].
Proof.
  intros Ha Hb Hc n. unfold dec3.
  assert (Hn : (n / 262144) * 262144 + ((n / 4096) mod 64) * 4096
               + ((n / 64) mod 64) * 64 + n mod 64 = n)
    by (subst n; sextet_range).
  rewrite Hn.
  assert (E0 : n / 65536 = a) by (subst n; sextet_range).
  assert (E1 : (n / 256) mod 256 = b) by (subst n; sextet_range).
  assert (E2 : n mod 256 = c) by (subst n; sextet_range).
  now rewrite E0, E1, E2.
Qed.

Lemma dec2_enc2 a b :
  0 <= a < 256 -> 0 <= b < 256 ->
  let n := (a * 256 + b) * 4 in
  dec2 (n / 4096) ((n / 64) mod 64) (n mod 64) = [byte_of_Z a; byte_of_Z b].
Proof.
  intros Ha Hb n. unfold dec2.
  assert (Hn : ((n / 4096) * 4096 + ((n / 64) mod 64) * 64 + n mod 64) / 4
               = a * 256 + b) by (subst n; sextet_range).
  rewrite Hn.
  assert (E0 : (a * 256 + b) / 256 = a) by sextet_range.
  assert (E1 : (a * 256 + b) mod 256 = b) by sextet_range.
  now rewrite E0, E1.
Qed.

Lemma dec1_enc1 a :
  0 <= a < 256 ->
  let n := a * 16 in
  dec1 (n / 64) (n mod 64) = [byte_of_Z a].
Proof.
  intros Ha n. unfold dec1.
  assert (Hn : ((n / 64) * 64 + n mod 64) / 16 = a) by (subst n; sextet_range).
  now rewrite Hn.
Qed.

Lemma b64decode_enc1 a : b64decode (enc1 (byte_val a)) = Some [a].
Proof.
  pose proof (byte_val_range a) as Ha. unfold enc1.
  cbn [b64decode].
  rewrite !sextet_of_char_of_sextet by sextet_range.
  change (Byte.eqb pad pad) with true. cbn iota.
  rewrite dec1_enc1 by lia. now rewrite byte_of_Z_val.
Qed.

Lemma b64decode_enc2 a b :
  b64decode (enc2 (byte_val a) (byte_val b)) = Some [a; b].
Proof.
  pose proof (byte_val_range a) as Ha. pose proof (byte_val_range b) as Hb.
  unfold enc2. cbn [b64decode].
  rewrite !sextet_of_char_of_sextet by sextet_range.
  change (Byte.eqb pad pad) with true. cbn iota.
  rewrite char_of_sextet_not_pad by sextet_range.
  rewrite dec2_enc2 by lia. now rewrite !byte_of_Z_val.
Qed.

Lemma b64decode_enc3 a b c rest tl :
  b64decode rest = Some tl ->
  b64decode (enc3 (byte_val a) (byte_val b) (byte_val c) ++ rest)
  = Some (a :: b :: c :: tl).
Proof.
  intros Hrest.
  pose proof (byte_val_range a) as Ha. pose proof (byte_val_range b) as Hb.
  pose proof (byte_val_range c) as Hc.
  unfold enc3. cbn [b64decode app].
  rewrite !sextet_of_char_of_sextet by sextet_range.
  rewrite char_of_sextet_not_pad by sextet_range.
  rewrite Hrest, dec3_enc3 by lia. now rewrite !byte_of_Z_val.
Qed.

(** *** The round trip *)

Lemma b64_roundtrip_below (k : nat) :
  forall bs : list byte,
    (length bs < k)%nat -> b64decode (b64encode bs) = Some bs.
Proof.
  induction k as [|k IH]; intros bs Hlen; [lia|].
  destruct bs as [|a [|b [|c rest]]].
  - reflexivity.
  - apply b64decode_enc1.
  - apply b64decode_enc2.
  - change (b64encode (a :: b :: c :: rest))
      with (enc3 (byte_val a) (byte_val b) (byte_val c) ++ b64encode rest).
    apply b64decode_enc3, IH. cbn [length] in Hlen. lia.
Qed.

Theorem b64decode_b64encode (bs : list byte) :
  b64decode (b64encode bs) = Some bs.
Proof. apply (b64_roundtrip_below (S (length bs))). lia. Qed.

(** The encoder only emits characters of the alphabet and [=], all of
    them ASCII, so decoding its output as ASCII cannot fail. *)
Lemma b64encode_ascii_below (k : nat) :
  forall bs : list byte,
    (length bs < k)%nat -> forallb is_ascii (b64encode bs) = true.
Proof.
  induction k as [|k IH]; intros bs Hlen; [lia|].
  destruct bs as [|a [|b [|c rest]]].
  - reflexivity.
  - pose proof (byte_val_range a). cbn [b64encode enc1 forallb].
    rewrite !char_of_sextet_ascii by sextet_range. reflexivity.
  - pose proof (byte_val_range a). pose proof (byte_val_range b).
    cbn [b64encode enc2 forallb].
    rewrite !char_of_sextet_ascii by sextet_range. reflexivity.
  - pose proof (byte_val_range a). pose proof (byte_val_range b).
    pose proof (byte_val_range c).
    change (b64encode (a :: b :: c :: rest))
      with (enc3 (byte_val a) (byte_val b) (byte_val c) ++ b64encode rest).
    rewrite forallb_app, IH by (cbn [length] in Hlen; lia).
    cbn [enc3 forallb].
    rewrite !char_of_sextet_ascii by sextet_range. reflexivity.
Qed.

Lemma decode_ascii_b64encode (bs : list byte) :
  decode_ascii (b64encode bs) = Some (string_of_list_byte (b64encode bs)).
Proof.
  unfold decode_ascii.
  now rewrite (b64encode_ascii_below (S (length bs))) by lia.
Qed.

End Base64Facts.

(** ** The pass over the images *)

Section Pass.
Import World Inliner.
Context (w : World.t) (base_dir : string).

Local Abbreviation resolved := (Inliner.resolved w base_dir).
Local Abbreviation not_found_warning := (Inliner.not_found_warning w base_dir).
Local Abbreviation failed_warning := (Inliner.failed_warning w base_dir).

Lemma local_candidate_tests ref :
  local_candidate ref = true ->
  truthy ref = true /\ startswith ref "data:" = false
  /\ startswith ref "http://" = false /\ startswith ref "https://" = false.
Proof.
  unfold local_candidate, startswith_any. cbn [existsb].
  intros H. apply andb_prop in H as [Ht H]. apply negb_true_iff in H.
  apply orb_false_elim in H as [H1 H]. apply orb_false_elim in H as [H2 H].
  apply orb_false_elim in H as [H3 _]. auto.
Qed.

Lemma remote_not_excluded_earlier src :
  startswith src "http://" = true \/ startswith src "https://" = true ->
  truthy src = true /\ startswith src "data:" = false.
Proof.
  unfold startswith, truthy.
  destruct src as [|c s]; cbn [String.prefix]; [intros [H|H]; discriminate|].
  intros H. split; [reflexivity|].
  destruct (ascii_dec "h" c) as [<-|Hc]; [reflexivity|].
  destruct H as [H|H]; discriminate.
Qed.

(** *** [to_data_uri] *)

Lemma to_data_uri_read_ok path b :
  read_bytes w path = Ok b ->
  to_data_uri w path
  = Ok (data_uri (mime_of w path)
          (string_of_list_byte (Base64.b64encode b))).
Proof.
  intros H. unfold to_data_uri.
  now rewrite H, Base64Facts.decode_ascii_b64encode.
Qed.



(** *** The [data-full] step *)

Lemma inline_data_full_counters st img :
  changed (inline_data_full w base_dir st img).1 = changed st
  /\ skipped (inline_data_full w base_dir st img).1 = skipped st.
Proof.
  unfold inline_data_full.
  repeat (case_match; cbn [fst print changed skipped]); auto.
Qed.

Lemma inline_data_full_src st img :
  (inline_data_full w base_dir st img).2 !! "src" = img !! "src".
Proof.
  unfold inline_data_full.
  repeat (case_match; cbn [snd]); try reflexivity.
  now rewrite lookup_insert_ne.
Qed.

Lemma inline_data_full_printed st img :
  exists more, printed (inline_data_full w base_dir st img).1
               = printed st ++ more.
Proof.
  unfold inline_data_full.
  repeat (case_match; cbn [fst print printed]);
    try (exists []; now rewrite app_nil_r).
  eexists. reflexivity.
Qed.

(** *** The body of the loop, branch by branch *)

Lemma process_img_continue st img :
  img !! "src" = None \/ img !! "src" = Some EmptyString
  \/ (exists s, img !! "src" = Some s /\ startswith s "data:" = true) ->
  process_img w base_dir st img = (st, img).
Proof.
  intros [H|[H|(s & H & Hs)]]; unfold process_img; rewrite H; cbn [from_option id].
  - reflexivity.
  - reflexivity.
  - rewrite Hs. now rewrite orb_true_r.
Qed.

Lemma process_img_remote st img src :
  img !! "src" = Some src ->
  startswith src "http://" = true \/ startswith src "https://" = true ->
  process_img w base_dir st img = (incr_skipped st, img).
Proof.
  intros H Hr. destruct (remote_not_excluded_earlier src Hr) as [Ht Hd].
  unfold process_img. rewrite H. cbn [from_option id]. rewrite Ht, Hd. cbn [negb orb].
  destruct Hr as [-> | ->]; [reflexivity | now rewrite orb_true_r].
Qed.

Lemma process_img_local st img src :
  img !! "src" = Some src ->
  local_candidate src = true ->
  process_img w base_dir st img
  = if negb (path_exists w (resolved src)) then
      (incr_skipped (print (not_found_warning src) st), img)
    else
      match to_data_uri w (resolved src) with
      | Ok uri =>
          inline_data_full w base_dir (incr_changed st) (<["src" := uri]> img)
      | Raise e =>
          inline_data_full w base_dir
            (incr_skipped (print (failed_warning src e) st)) img
      end.
Proof.
  intros H Hc. destruct (local_candidate_tests src Hc) as (Ht & Hd & H1 & H2).
  unfold process_img. rewrite H. cbn [from_option id].
  rewrite Ht, Hd, H1, H2. cbn [negb orb].
  change (normpath w (join w base_dir src)) with (resolved src).
  destruct (path_exists w (resolved src)); cbn [negb]; [|reflexivity].
  destruct (to_data_uri w (resolved src)); reflexivity.
Qed.

Lemma process_imgs_cons st img rest :
  process_imgs w base_dir st (img :: rest)
  = let r := process_img w base_dir st img in
    let rs := process_imgs w base_dir r.1 rest in
    (rs.1, r.2 :: rs.2).
Proof.
  cbn [process_imgs]. destruct (process_img w base_dir st img) as [st1 img1].
  cbn [fst snd]. now destruct (process_imgs w base_dir st1 rest).
Qed.

(** Whenever the handling of [src] ends in [continue], the element comes
    out as it went in, [data-full] included. *)
Lemma process_img_continue_keeps_element st img :
  (img !! "src" = None \/ img !! "src" = Some EmptyString
   \/ (exists s, img !! "src" = Some s /\ startswith s "data:" = true))
  \/ (exists s, img !! "src" = Some s
                /\ (startswith s "http://" = true
                    \/ startswith s "https://" = true))
  \/ (exists s, img !! "src" = Some s /\ local_candidate s = true
                /\ path_exists w (resolved s) = false) ->
  (process_img w base_dir st img).2 = img.
Proof.
  intros [H|[(s & H & Hr)|(s & H & Hc & Hex)]].
  - now rewrite process_img_continue.
  - now rewrite (process_img_remote st img s).
  - now rewrite (process_img_local st img s), Hex.
Qed.

(** A page whose images all carry a [data:] [src] goes through the loop
    untouched. *)
Lemma process_imgs_all_inlined imgs :
  forall st,
    Forall (fun img : tag =>
              exists s, img !! "src" = Some s /\ startswith s "data:" = true)
      imgs ->
    process_imgs w base_dir st imgs = (st, imgs).
Proof.
  induction imgs as [|img rest IH]; intros st Hall; [reflexivity|].
  inversion Hall as [|? ? Himg Hrest]; subst.
  rewrite process_imgs_cons, process_img_continue by auto.
  cbn [fst snd]. now rewrite IH.
Qed.

Lemma mime_of_guessed path m :
  guess_type w path = Some m -> m <> EmptyString -> mime_of w path = m.
Proof.
  intros H Hm. unfold mime_of, truthy. rewrite H.
  destruct (String.eqb_spec m EmptyString); [contradiction | reflexivity].
Qed.

Lemma mime_of_fallback path :
  guess_type w path = None \/ guess_type w path = Some EmptyString ->
  mime_of w path = "application/octet-stream".
Proof. intros [H|H]; unfold mime_of; now rewrite H. Qed.

Lemma process_img_inlined st img src b :
  img !! "src" = Some src ->
  local_candidate src = true ->
  path_exists w (resolved src) = true ->
  read_bytes w (resolved src) = Ok b ->
  let uri := data_uri (mime_of w (resolved src))
               (string_of_list_byte (Base64.b64encode b)) in
  let out := process_img w base_dir st img in
  out = inline_data_full w base_dir (incr_changed st) (<["src" := uri]> img)
  /\ out.2 !! "src" = Some uri
  /\ changed out.1 = changed st + 1
  /\ skipped out.1 = skipped st.
Proof.
  intros Hsrc Hc Hex Hrd uri out. subst out.
  rewrite (process_img_local st img src Hsrc Hc), Hex. cbn [negb].
  rewrite (to_data_uri_read_ok _ b Hrd). fold uri.
  destruct (inline_data_full_counters (incr_changed st) (<["src" := uri]> img))
    as [Hch Hsk].
  rewrite inline_data_full_src, lookup_insert_eq. auto.
Qed.

Lemma prefix_append (s1 s2 : string) : String.prefix s1 (s1 +:+ s2) = true.
Proof.
  induction s1 as [|a s1 IH].
  - now destruct s2.
  - change (String a s1 +:+ s2) with (String a (s1 +:+ s2)).
    cbn [String.prefix]. now destruct (ascii_dec a a).
Qed.

Lemma data_uri_starts_with_data mime b64 :
  startswith (data_uri mime b64) "data:" = true.
Proof. apply prefix_append. Qed.

(** *** The claims on one element *)

(** C2. An [img] whose [src] is a local reference to an existing file that
    can be read gets [src] = [data:<mime>;base64,<b64>], where [<b64>] is
    the base64 text of the bytes read (decoding it gives those bytes
    back), [<mime>] is the guessed type, or [application/octet-stream]
    when there is no guess, and [changed] goes up by exactly one while
    [skipped] stays. *)
Theorem src_inlined_as_data_uri st img src b :
  img !! "src" = Some src ->
  local_candidate src = true ->
  path_exists w (resolved src) = true ->
  read_bytes w (resolved src) = Ok b ->
  let out := process_img w base_dir st img in
  let mime := mime_of w (resolved src) in
  let b64 := string_of_list_byte (Base64.b64encode b) in
  out.2 !! "src" = Some ("data:" +:+ mime +:+ ";base64," +:+ b64)
  /\ Base64.b64decode (list_byte_of_string b64) = Some b
  /\ (forall m, guess_type w (resolved src) = Some m ->
                m <> EmptyString -> mime = m)
  /\ (guess_type w (resolved src) = None -> mime = "application/octet-stream")
  /\ changed out.1 = changed st + 1
  /\ skipped out.1 = skipped st.
Proof.
  intros Hsrc Hc Hex Hrd out mime b64.
  destruct (process_img_inlined st img src b Hsrc Hc Hex Hrd)
    as (_ & Hout & Hch & Hsk).
  repeat split.
  - exact Hout.
  - subst b64. rewrite list_byte_of_string_of_list_byte.
    apply Base64Facts.b64decode_b64encode.
  - intros m Hm Hne. now apply mime_of_guessed.
  - intros Hn. apply mime_of_fallback. now left.
  - exact Hch.
  - exact Hsk.
Qed.

(** C3. An [img] whose [src] starts with [http://] or [https://] comes out
    as it went in, [skipped] goes up by exactly one, and nothing else of
    the state moves: [changed] and what was printed stay. *)
Theorem remote_src_counted_skipped st img src :
  img !! "src" = Some src ->
  startswith src "http://" = true \/ startswith src "https://" = true ->
  let out := process_img w base_dir st img in
  out.2 = img
  /\ out.2 !! "src" = Some src
  /\ skipped out.1 = skipped st + 1
  /\ changed out.1 = changed st
  /\ printed out.1 = printed st.
Proof.
  intros Hsrc Hr out. subst out.
  rewrite (process_img_remote st img src Hsrc Hr). cbn.
  repeat split; auto.
Qed.

(** C4. An [img] whose [src] is a local reference to a path that does not
    exist keeps its [src] (the element is not touched), [skipped] goes up
    by exactly one, one warning ending in the resolved path is printed,
    and the loop goes on with the elements that follow. *)
Theorem missing_file_counted_skipped st img src rest :
  img !! "src" = Some src ->
  local_candidate src = true ->
  path_exists w (resolved src) = false ->
  let out := process_img w base_dir st img in
  let later := process_imgs w base_dir out.1 rest in
  out.2 = img
  /\ skipped out.1 = skipped st + 1
  /\ changed out.1 = changed st
  /\ printed out.1
     = printed st ++ ["[warn] file not found for <img src='" +:+ src
                      +:+ "'> -> " +:+ resolved src]
  /\ process_imgs w base_dir st (img :: rest) = (later.1, img :: later.2).
Proof.
  intros Hsrc Hc Hex out later. subst later out.
  rewrite process_imgs_cons.
  rewrite (process_img_local st img src Hsrc Hc), Hex. cbn.
  repeat split; auto.
Qed.

(** C5. An [img] with no [src], an empty [src], or a [src] that starts
    with [data:] is passed over: same counters, nothing printed, same
    attributes. *)
Theorem excluded_src_passed_over st img :
  img !! "src" = None \/ img !! "src" = Some EmptyString
  \/ (exists s, img !! "src" = Some s /\ startswith s "data:" = true) ->
  let out := process_img w base_dir st img in
  out.1 = st
  /\ out.2 = img
  /\ changed out.1 = changed st
  /\ skipped out.1 = skipped st
  /\ printed out.1 = printed st.
Proof.
  intros H out. subst out. rewrite (process_img_continue st img H). cbn.
  repeat split; auto.
Qed.

(** C6. When [to_data_uri] raises on an existing resolved file, the
    exception is caught: the warning is printed, [skipped] goes up by
    exactly one, [changed] stays, [src] keeps its value, and the loop goes
    on with the elements that follow. *)
Theorem inline_failure_caught st img src e rest :
  img !! "src" = Some src ->
  local_candidate src = true ->
  path_exists w (resolved src) = true ->
  to_data_uri w (resolved src) = Raise e ->
  let out := process_img w base_dir st img in
  let later := process_imgs w base_dir out.1 rest in
  out.2 !! "src" = Some src
  /\ skipped out.1 = skipped st + 1
  /\ changed out.1 = changed st
  /\ (exists more,
        printed out.1
        = printed st ++ ["[warn] failed to inline " +:+ resolved src
                         +:+ ": " +:+ e] ++ more)
  /\ process_imgs w base_dir st (img :: rest) = (later.1, out.2 :: later.2).
Proof.
  intros Hsrc Hc Hex Hraise out later. subst later out.
  rewrite process_imgs_cons. cbn zeta.
  rewrite (process_img_local st img src Hsrc Hc), Hex, Hraise. cbn [negb].
  set (st1 := incr_skipped (print (failed_warning src e) st)).
  destruct (inline_data_full_counters st1 img) as [Hch Hsk].
  destruct (inline_data_full_printed st1 img) as [more Hpr].
  repeat split.
  - now rewrite inline_data_full_src.
  - rewrite Hsk. reflexivity.
  - rewrite Hch. reflexivity.
  - exists more. rewrite Hpr. subst st1. cbn [printed incr_skipped print].
    now rewrite <- app_assoc.
Qed.

Lemma startswith_iff s p : startswith s p = true <-> has_prefix p s.
Proof.
  unfold startswith, has_prefix. split.
  - revert s. induction p as [|a p IH]; intros s H.
    + now exists s.
    + destruct s as [|b s]; cbn [String.prefix] in H; [discriminate|].
      destruct (ascii_dec a b) as [<-|]; [|discriminate].
      destruct (IH s H) as [t ->]. now exists t.
  - intros [t ->]. apply prefix_append.
Qed.

Lemma startswith_false s p : ~ has_prefix p s -> startswith s p = false.
Proof.
  intros H. destruct (startswith s p) eqn:E; [|reflexivity].
  now apply startswith_iff in E.
Qed.

Lemma unexcluded_candidate ref : unexcluded ref -> local_candidate ref = true.
Proof.
  intros (Hne & H1 & H2 & H3). unfold local_candidate, startswith_any, truthy.
  cbn [existsb]. rewrite !startswith_false by assumption.
  destruct (String.eqb_spec ref EmptyString); [contradiction|reflexivity].
Qed.

Lemma src_ends_in_continue_keeps st img :
  src_ends_in_continue w base_dir img ->
  (process_img w base_dir st img).2 = img.
Proof.
  intros H. apply process_img_continue_keeps_element.
  destruct H as [H|[H|[(s & H & [Hp|Hp])|(s & H & Hu & Hex)]]].
  - left. now left.
  - left. right. now left.
  - left. right. right. exists s. split; [assumption|].
    now apply startswith_iff.
  - right. left. exists s. split; [assumption|].
    destruct Hp as [Hp|Hp]; [left|right]; now apply startswith_iff.
  - right. right. exists s. repeat split; auto.
    now apply unexcluded_candidate.
Qed.

(** C9. The tests of lines 49, 51 and 69 are prefix tests on the very
    characters: a value passes one exactly when it is the prefix followed
    by something, so [HTTP://host/x] and [//host/x] pass none.  In [src],
    every value that is not empty and passes none of them is looked up as
    a path under the base directory: a file found there is inlined, a
    missing one is counted as skipped with the file-not-found warning,
    where a remote reference is skipped without a word.  In [data-full],
    such a value is resolved and inlined whenever the handling of [src]
    falls through to line 68; after a [continue] the step is not reached
    and the value stays as it is, whatever is at the resolved path. *)
Theorem exclusion_tests_are_exact_prefixes :
  (forall s p, startswith s p = true <-> exists t, s = p +:+ t)
  /\ unexcluded "HTTP://host/x"
  /\ unexcluded "//host/x"
  /\ (forall st img ref,
        img !! "src" = Some ref ->
        unexcluded ref ->
        let out := process_img w base_dir st img in
        (path_exists w (resolved ref) = false ->
         out.2 = img
         /\ skipped out.1 = skipped st + 1
         /\ printed out.1
            = printed st ++ ["[warn] file not found for <img src='" +:+ ref
                             +:+ "'> -> " +:+ resolved ref])
        /\ (forall b,
              path_exists w (resolved ref) = true ->
              read_bytes w (resolved ref) = Ok b ->
              out.2 !! "src"
              = Some (data_uri (mime_of w (resolved ref))
                        (string_of_list_byte (Base64.b64encode b)))
              /\ changed out.1 = changed st + 1
              /\ skipped out.1 = skipped st))
  /\ (forall st img src ref b,
        img !! "src" = Some src ->
        unexcluded src ->
        path_exists w (resolved src) = true ->
        img !! "data-full" = Some ref ->
        unexcluded ref ->
        path_exists w (resolved ref) = true ->
        read_bytes w (resolved ref) = Ok b ->
        (process_img w base_dir st img).2 !! "data-full"
        = Some (data_uri (mime_of w (resolved ref))
                  (string_of_list_byte (Base64.b64encode b))))
  /\ (forall st img ref,
        img !! "data-full" = Some ref ->
        src_ends_in_continue w base_dir img ->
        (process_img w base_dir st img).2 !! "data-full" = Some ref)
  /\ (path_exists Site.world
        (Inliner.resolved Site.world Site.base_dir "HTTP://host/x") = true
      /\ (inline_data_full Site.world Site.base_dir init
            Site.upper_case_full).2 !! "data-full"
         = Some "data:application/octet-stream;base64,TWFu"
      /\ (process_img Site.world Site.base_dir init
            Site.upper_case_full).2 !! "data-full"
         = Some "HTTP://host/x").
Proof.
  split; [exact startswith_iff|].
  assert (Hforms : forall ref,
            local_candidate ref = true -> unexcluded ref).
  { intros ref Hc. destruct (local_candidate_tests ref Hc) as (Ht & Hd & H1 & H2).
    unfold unexcluded. repeat split.
    - intros ->. discriminate.
    - intros Hp. apply startswith_iff in Hp. congruence.
    - intros Hp. apply startswith_iff in Hp. congruence.
    - intros Hp. apply startswith_iff in Hp. congruence. }
  split; [now apply Hforms|]. split; [now apply Hforms|].
  split; [|split; [|split]].
  - intros st img ref Hsrc Hu out. subst out.
    pose proof (unexcluded_candidate ref Hu) as Hc.
    split.
    + intros Hex. rewrite (process_img_local st img ref Hsrc Hc), Hex.
      cbn. auto.
    + intros b Hex Hrd.
      destruct (process_img_inlined st img ref b Hsrc Hc Hex Hrd)
        as (_ & Hout & Hch & Hsk).
      auto.
  - intros st img src ref b Hsrc Hu Hex Hdf Hu' Hex' Hrd.
    pose proof (unexcluded_candidate src Hu) as Hc.
    pose proof (unexcluded_candidate ref Hu') as Hc'.
    unfold local_candidate in Hc'.
    rewrite (process_img_local st img src Hsrc Hc), Hex. cbn [negb].
    destruct (to_data_uri w (resolved src)); unfold inline_data_full;
      rewrite ?lookup_insert_ne by discriminate; rewrite Hdf, Hc';
      change (normpath w (join w base_dir ref)) with (resolved ref);
      rewrite Hex', (to_data_uri_read_ok _ b Hrd); cbn [snd];
      apply lookup_insert_eq.
  - intros st img ref Hdf Hcont.
    rewrite (src_ends_in_continue_keeps st img Hcont). exact Hdf.
  - repeat split; vm_compute; reflexivity.
Qed.

(** *** The counters *)

Lemma process_img_one_step st img :
  let st' := (process_img w base_dir st img).1 in
  (changed st' = changed st /\ skipped st' = skipped st)
  \/ (changed st' = changed st + 1 /\ skipped st' = skipped st)
  \/ (changed st' = changed st /\ skipped st' = skipped st + 1).
Proof.
  cbn zeta. unfold process_img.
  destruct (negb (truthy (default EmptyString (img !! "src")))
            || startswith (default EmptyString (img !! "src")) "data:");
    [left; auto|].
  destruct (startswith (default EmptyString (img !! "src")) "http://"
            || startswith (default EmptyString (img !! "src")) "https://");
    [right; right; auto|].
  destruct (negb (path_exists w _)); [right; right; auto|].
  destruct (to_data_uri w _) as [uri|e].
  - destruct (inline_data_full_counters (incr_changed st)
                (<["src" := uri]> img)) as [-> ->].
    right; left; auto.
  - match goal with
    | |- context [inline_data_full w base_dir ?s ?i] =>
        destruct (inline_data_full_counters s i) as [-> ->]
    end.
    right; right; auto.
Qed.

Lemma process_imgs_counters imgs :
  forall st,
    let st' := (process_imgs w base_dir st imgs).1 in
    changed st <= changed st'
    /\ skipped st <= skipped st'
    /\ changed st' + skipped st'
       <= changed st + skipped st + Z.of_nat (length imgs).
Proof.
  induction imgs as [|img rest IH]; intros st; cbn zeta.
  - cbn. lia.
  - rewrite process_imgs_cons. cbn [fst length].
    pose proof (process_img_one_step st img) as Hstep. cbn zeta in Hstep.
    specialize (IH (process_img w base_dir st img).1). cbn zeta in IH.
    lia.
Qed.

(** C10. Each [img] moves the counters in exactly one of three ways:
    not at all, [changed] up by one, or [skipped] up by one.  So after the
    loop, started as [main] starts it, neither counter is negative and
    [changed + skipped] is at most the number of [img] elements. *)
Theorem counters_bounded_by_images :
  (forall st img,
     let st' := (process_img w base_dir st img).1 in
     (changed st' = changed st /\ skipped st' = skipped st)
     \/ (changed st' = changed st + 1 /\ skipped st' = skipped st)
     \/ (changed st' = changed st /\ skipped st' = skipped st + 1))
  /\ (forall imgs,
        let final := (process_imgs w base_dir init imgs).1 in
        0 <= changed final
        /\ 0 <= skipped final
        /\ changed final + skipped final <= Z.of_nat (length imgs)).
Proof.
  split; [apply process_img_one_step|].
  intros imgs. pose proof (process_imgs_counters imgs init) as H.
  cbn zeta in *. cbn [init changed skipped] in H. lia.
Qed.

End Pass.

(** ** Running twice *)

(** C8. An [img] whose [src] the first run inlined comes out of a second
    run, in whatever world and state, exactly as it went in, and the
    counters of that run do not move for it. *)
Theorem inlined_src_untouched_by_second_run
    (w : World.t) (base_dir : string) (st : Inliner.state) (img : tag)
    (src : string) (b : list byte) :
  img !! "src" = Some src ->
  Inliner.local_candidate src = true ->
  World.path_exists w (Inliner.resolved w base_dir src) = true ->
  World.read_bytes w (Inliner.resolved w base_dir src) = Ok b ->
  let first := (Inliner.process_img w base_dir st img).2 in
  Inliner.startswith (default EmptyString (first !! "src")) "data:" = true
  /\ forall (w2 : World.t) (base_dir2 : string) (st2 : Inliner.state),
       let second := Inliner.process_img w2 base_dir2 st2 first in
       second.2 = first
       /\ second.2 !! "src" = first !! "src"
       /\ Inliner.changed second.1 = Inliner.changed st2
       /\ second.1 = st2.
Proof.
  intros Hsrc Hc Hex Hrd first.
  destruct (process_img_inlined w base_dir st img src b Hsrc Hc Hex Hrd)
    as (_ & Hout & _).
  fold first in Hout. rewrite Hout. split.
  - apply data_uri_starts_with_data.
  - intros w2 base_dir2 st2 second. subst second.
    rewrite (process_img_continue w2 base_dir2 st2 first).
    + cbn. auto.
    + right; right. eexists. split; [exact Hout|].
      apply data_uri_starts_with_data.
Qed.

(** ** The command line *)


(** ** The script at work in [/site] *)

Section AtSite.
Import Inliner.

(** C1.  The step of lines 68-75 never moves the counters, and it does
    run after a [src] that was inlined or failed to inline.  But when the
    handling of [src] ends in [continue] (a remote [src], a [data:]
    [src], no [src], a missing file) the step is not reached: the
    [data-full] that the step alone would inline stays as it was. *)
Theorem data_full_not_reached_after_continue :
  Forall (fun img : tag =>
            (inline_data_full Site.world Site.base_dir init img).2
              !! "data-full" = Some Site.big_png_uri
            /\ (process_img Site.world Site.base_dir init img).2
                 !! "data-full" = Some "big.png")
    [ Site.gallery_img (Some "https://example.com/x.png");
      Site.gallery_img (Some "data:image/gif;base64,R0lGODlh");
      Site.gallery_img None;
      Site.gallery_img (Some "gone.png") ]
  /\ Forall (fun img : tag =>
               (process_img Site.world Site.base_dir init img).2
                 !! "data-full" = Some Site.big_png_uri)
       [ Site.gallery_img (Some "logo.png");
         Site.gallery_img (Some "photos") ].
Proof.
  split; repeat constructor; vm_compute; reflexivity.
Qed.

(** *** Runs of the script *)

Example b64encode_rfc4648 :
  map (fun s => string_of_list_byte (Base64.b64encode (list_byte_of_string s)))
    ["f"; "fo"; "foo"; "foob"; "fooba"; "foobar"]
  = ["Zg=="; "Zm8="; "Zm9v"; "Zm9vYg=="; "Zm9vYmE="; "Zm9vYmFy"].
Proof. vm_compute. reflexivity. Qed.

Example b64decode_rejects_stray_padding :
  Base64.b64decode (list_byte_of_string "Zg==Zg==") = None
  /\ Base64.b64decode (list_byte_of_string "Zm9") = None.
Proof. split; vm_compute; reflexivity. Qed.

Example posix_paths :
  Posix.normpath (Posix.join "/site" "img/../logo.png") = "/site/logo.png"
  /\ Posix.normpath (Posix.join "/site" "/etc/logo.png") = "/etc/logo.png"
  /\ Posix.normpath (Posix.join "/site" "//host/x") = "//host/x"
  /\ Posix.dirname (Posix.abspath Site.cwd "page.html") = Site.base_dir.
Proof. repeat split; vm_compute; reflexivity. Qed.

(** The page of two images: one local file of ten bytes, one remote. *)
Example main_on_the_page :
  let r := main Site.world
             ["pack_to_single_html.py"; "page.html"; "page.single.html"] in
  stdout r = ["Done. Inlined images: 1, skipped: 1";
              "Written: page.single.html"]
  /\ ending r = Exited 0
  /\ map fst (written r) = ["page.single.html"].
Proof. repeat split; vm_compute; reflexivity. Qed.

(** The input is there but cannot be read as a file: nothing catches the
    exception, and nothing is written. *)
Example main_on_a_directory :
  main Site.world ["pack_to_single_html.py"; "photos"; "out.html"]
  = {| stdout := [];
       ending := Uncaught "[Errno 21] Is a directory: 'photos'";
       written := [] |}.
Proof. vm_compute. reflexivity. Qed.

(** The output cannot be opened: the exception of line 80 is not caught,
    the warnings are all that was printed, and no file is left. *)
Example main_on_a_missing_output_directory :
  main Site.world ["pack_to_single_html.py"; "page.html"; "nodir/out.html"]
  = {| stdout := [];
       ending :=
         Uncaught "[Errno 2] No such file or directory: 'nodir/out.html'";
       written := [] |}.
Proof. vm_compute. reflexivity. Qed.

(** References in another form, in [src]: one is found as a file under
    the base directory and inlined, the other is looked up as the path it
    spells and reported missing. *)
Example src_in_another_form :
  let upper := process_img Site.world Site.base_dir init
                 {[ "src" := "HTTP://host/x" ]} in
  let relative := process_img Site.world Site.base_dir init
                    {[ "src" := "//host/x" ]} in
  Inliner.resolved Site.world Site.base_dir "HTTP://host/x"
  = "/site/HTTP:/host/x"
  /\ upper.2 !! "src" = Some "data:application/octet-stream;base64,TWFu"
  /\ changed upper.1 = 1
  /\ skipped upper.1 = 0
  /\ skipped relative.1 = 1
  /\ printed relative.1
     = ["[warn] file not found for <img src='//host/x'> -> //host/x"].
Proof. repeat split; vm_compute; reflexivity. Qed.

(** *** The theorems above, at one input each *)

Lemma src_inlined_as_data_uri_witness :
  let img : tag := {[ "src" := "logo.png" ]} in
  let out := process_img Site.world Site.base_dir init img in
  World.read_bytes Site.world "/site/logo.png" = Ok Site.logo_png
  /\ out.2 !! "src" = Some "data:image/png;base64,MDEyMzQ1Njc4OQ=="
  /\ Base64.b64decode (list_byte_of_string "MDEyMzQ1Njc4OQ==")
     = Some Site.logo_png
  /\ changed out.1 = 1
  /\ skipped out.1 = 0.
Proof.
  intros img out. split; [reflexivity|].
  destruct (src_inlined_as_data_uri Site.world Site.base_dir init img
              "logo.png" Site.logo_png)
    as (Hsrc & Hdec & _ & _ & Hch & Hsk); try reflexivity.
  exact (conj Hsrc (conj Hdec (conj Hch Hsk))).
Defined.

Lemma remote_src_counted_skipped_witness :
  let img : tag := {[ "src" := "https://example.com/x.png" ]} in
  let out := process_img Site.world Site.base_dir init img in
  startswith "https://example.com/x.png" "https://" = true
  /\ out.2 = img
  /\ skipped out.1 = 1
  /\ changed out.1 = 0
  /\ printed out.1 = [].
Proof.
  intros img out. split; [reflexivity|].
  destruct (remote_src_counted_skipped Site.world Site.base_dir init img
              "https://example.com/x.png")
    as (Himg & _ & Hsk & Hch & Hpr); [reflexivity | right; reflexivity |].
  exact (conj Himg (conj Hsk (conj Hch Hpr))).
Defined.

Lemma missing_file_counted_skipped_witness :
  let img : tag := {[ "src" := "img/gone.png" ]} in
  let out := process_img Site.world Site.base_dir init img in
  World.path_exists Site.world "/site/img/gone.png" = false
  /\ out.2 = img
  /\ skipped out.1 = 1
  /\ printed out.1
     = ["[warn] file not found for <img src='img/gone.png'> -> /site/img/gone.png"]
  /\ (process_imgs Site.world Site.base_dir init
        [img; {[ "src" := "logo.png" ]}]).1
     = {| changed := 1; skipped := 1; printed := printed out.1 |}.
Proof.
  intros img out. split; [reflexivity|].
  destruct (missing_file_counted_skipped Site.world Site.base_dir init img
              "img/gone.png" [{[ "src" := "logo.png" ]}])
    as (Himg & Hsk & _ & Hpr & Hgo); try reflexivity.
  refine (conj Himg (conj Hsk (conj Hpr _))).
  rewrite Hgo. vm_compute. reflexivity.
Defined.

Lemma excluded_src_passed_over_witness :
  let img : tag := {[ "src" := "data:image/gif;base64,R0lGODlh" ]} in
  let out := process_img Site.world Site.base_dir init img in
  out.1 = init /\ out.2 = img.
Proof.
  intros img out.
  destruct (excluded_src_passed_over Site.world Site.base_dir init img)
    as (Hst & Himg & _).
  - right; right. exists "data:image/gif;base64,R0lGODlh".
    split; reflexivity.
  - exact (conj Hst Himg).
Defined.

Lemma inline_failure_caught_witness :
  let img : tag := {[ "src" := "photos" ]} in
  let out := process_img Site.world Site.base_dir init img in
  World.path_exists Site.world "/site/photos" = true
  /\ to_data_uri Site.world "/site/photos"
     = Raise "[Errno 21] Is a directory: '/site/photos'"
  /\ out.2 !! "src" = Some "photos"
  /\ skipped out.1 = 1
  /\ changed out.1 = 0
  /\ (process_imgs Site.world Site.base_dir init
        [img; {[ "src" := "logo.png" ]}]).1
     = {| changed := 1; skipped := 1; printed := printed out.1 |}.
Proof.
  intros img out. split; [reflexivity|]. split; [reflexivity|].
  destruct (inline_failure_caught Site.world Site.base_dir init img
              "photos" "[Errno 21] Is a directory: '/site/photos'"
              [{[ "src" := "logo.png" ]}])
    as (Hsrc & Hsk & Hch & _ & Hgo); try reflexivity.
  refine (conj Hsrc (conj Hsk (conj Hch _))).
  rewrite Hgo. vm_compute. reflexivity.
Defined.


Lemma inlined_src_untouched_by_second_run_witness :
  let img : tag := {[ "src" := "logo.png" ]} in
  let first := (process_img Site.world Site.base_dir init img).2 in
  let second :=
    process_img Site.world Site.base_dir
      {| changed := 1; skipped := 0; printed := [] |} first in
  first !! "src" = Some "data:image/png;base64,MDEyMzQ1Njc4OQ=="
  /\ second.2 = first
  /\ changed second.1 = 1.
Proof.
  intros img first second. split; [reflexivity|].
  destruct (inlined_src_untouched_by_second_run Site.world Site.base_dir
              init img "logo.png" Site.logo_png)
    as (_ & Hagain); try reflexivity.
  destruct (Hagain Site.world Site.base_dir
              {| changed := 1; skipped := 0; printed := [] |})
    as (Hsame & _ & Hch & _).
  exact (conj Hsame Hch).
Defined.

End AtSite.

(** ** More on the two functions *)

Section Coverage.
Import World Inliner Tally Cases.
Context (w : World.t) (base_dir : string).

Local Abbreviation resolved := (Inliner.resolved w base_dir).
Local Abbreviation data_full_warning := (Cases.data_full_warning w base_dir).
Local Abbreviation data_full_case := (Cases.data_full_case w base_dir).
Local Abbreviation src_case := (Cases.src_case w base_dir).

(** *** Strings *)

Lemma string_length_append (s1 s2 : string) :
  String.length (s1 +:+ s2) = (String.length s1 + String.length s2)%nat.
Proof.
  induction s1 as [|a s1 IH]; [reflexivity|].
  change (String a s1 +:+ s2) with (String a (s1 +:+ s2)).
  cbn [String.length]. now rewrite IH.
Qed.

Lemma string_of_list_byte_length (l : list byte) :
  String.length (string_of_list_byte l) = length l.
Proof.
  unfold string_of_list_byte.
  induction l as [|b l IH]; [reflexivity|].
  cbn [map string_of_list_ascii String.length length]. now rewrite IH.
Qed.

Lemma b64encode_length_below (k : nat) :
  forall bs : list byte,
    (length bs < k)%nat ->
    length (Base64.b64encode bs) = (4 * ((length bs + 2) / 3))%nat.
Proof.
  induction k as [|k IH]; intros bs Hlen; [lia|].
  destruct bs as [|a [|b [|c rest]]]; try reflexivity.
  change (Base64.b64encode (a :: b :: c :: rest))
    with (Base64.enc3 (Base64.byte_val a) (Base64.byte_val b)
            (Base64.byte_val c) ++ Base64.b64encode rest).
  rewrite length_app, IH by (cbn [length] in Hlen; lia).
  cbn [Base64.enc3 length].
  replace (S (S (S (length rest))) + 2)%nat
    with (1 * 3 + (length rest + 2))%nat by lia.
  rewrite Nat.div_add_l by lia. lia.
Qed.

Lemma b64encode_length (bs : list byte) :
  length (Base64.b64encode bs) = (4 * ((length bs + 2) / 3))%nat.
Proof. apply (b64encode_length_below (S (length bs))). lia. Qed.

Lemma mime_of_not_empty path : mime_of w path <> EmptyString.
Proof.
  unfold mime_of, truthy.
  destruct (guess_type w path) as [m|]; [|discriminate].
  destruct (String.eqb_spec m EmptyString); [discriminate | assumption].
Qed.

Lemma to_data_uri_ok_inv path uri :
  to_data_uri w path = Ok uri ->
  exists b,
    read_bytes w path = Ok b
    /\ uri = data_uri (mime_of w path)
               (string_of_list_byte (Base64.b64encode b)).
Proof.
  unfold to_data_uri. destruct (read_bytes w path) as [b|e]; [|discriminate].
  rewrite Base64Facts.decode_ascii_b64encode. intros [= <-]. eauto.
Qed.

Lemma to_data_uri_ok_data path uri :
  to_data_uri w path = Ok uri -> startswith uri "data:" = true.
Proof.
  intros H. apply to_data_uri_ok_inv in H as (b & _ & ->).
  apply data_uri_starts_with_data.
Qed.

Lemma data_uri_not_candidate uri :
  startswith uri "data:" = true -> local_candidate uri = false.
Proof.
  intros H. unfold local_candidate, startswith_any. cbn [existsb].
  rewrite H, !orb_true_r. apply andb_false_r.
Qed.

(** *** [to_data_uri] *)


(** X2. Whatever [to_data_uri] returns was read from the file: the result
    is [data:<mime>;base64,<b64 of the bytes read>], its media type is
    never empty (an empty guess falls back like no guess), and it starts
    with [data:]. *)
Theorem to_data_uri_result_shape path uri :
  to_data_uri w path = Ok uri ->
  exists b mime,
    read_bytes w path = Ok b
    /\ uri = "data:" +:+ mime +:+ ";base64,"
             +:+ string_of_list_byte (Base64.b64encode b)
    /\ mime <> EmptyString
    /\ (guess_type w path = Some EmptyString ->
        mime = "application/octet-stream")
    /\ startswith uri "data:" = true.
Proof.
  intros H. pose proof (to_data_uri_ok_data path uri H) as Hd.
  apply to_data_uri_ok_inv in H as (b & Hrd & ->).
  exists b, (mime_of w path). repeat split; auto.
  - apply mime_of_not_empty.
  - intros Hg. apply mime_of_fallback. now right.
Qed.

(** X3. The size of the result: 13 characters of scheme and separator,
    the media type, and four characters for every three bytes of the
    file, the last group rounded up. *)
Theorem to_data_uri_length path uri b :
  read_bytes w path = Ok b ->
  to_data_uri w path = Ok uri ->
  String.length uri
  = (13 + String.length (mime_of w path) + 4 * ((length b + 2) / 3))%nat.
Proof.
  intros Hrd H. rewrite (to_data_uri_read_ok w path b Hrd) in H.
  injection H as <-. unfold data_uri.
  rewrite !string_length_append, string_of_list_byte_length, b64encode_length.
  cbn [String.length]. lia.
Qed.

(** *** The [data-full] step, case by case *)

Lemma inline_data_full_cases st img :
  data_full_case st img (inline_data_full w base_dir st img).
Proof.
  unfold inline_data_full.
  destruct (img !! "data-full") as [ref|] eqn:Hdf;
    [|apply DfSkip; now left].
  change (truthy ref
          && negb (startswith_any ref ["http://"; "https://"; "data:"]))
    with (local_candidate ref).
  change (normpath w (join w base_dir ref)) with (resolved ref).
  destruct (local_candidate ref) eqn:Hc;
    [|apply DfSkip; right; eauto].
  destruct (path_exists w (resolved ref)) eqn:Hex;
    [|apply DfSkip; right; eauto].
  destruct (to_data_uri w (resolved ref)) as [uri|e] eqn:Huri.
  - now apply (DfInlined w base_dir st img ref uri).
  - now apply (DfFailed w base_dir st img ref e).
Qed.

Lemma warn_line_data_full ref e : warn_line (data_full_warning ref e) = true.
Proof.
  unfold warn_line, startswith, data_full_warning.
  change ("[warn] failed to inline data-full " +:+ resolved ref +:+ ": " +:+ e)
    with ("[warn] " +:+ "failed to inline data-full " +:+ resolved ref
          +:+ ": " +:+ e).
  apply prefix_append.
Qed.

Lemma dom_insert_present (img : tag) k v :
  is_Some (img !! k) -> dom (<[k := v]> img) = dom img.
Proof.
  intros H. rewrite dom_insert_L.
  apply subseteq_union_1_L, singleton_subseteq_l, elem_of_dom, H.
Qed.

Lemma inline_data_full_again st st2 img :
  (inline_data_full w base_dir st2 (inline_data_full w base_dir st img).2).2
  = (inline_data_full w base_dir st img).2.
Proof.
  destruct (inline_data_full_cases st img)
    as [Hskip | ref uri Hdf Hc Hex Huri | ref e Hdf Hc Hex Huri]; cbn [snd].
  - unfold inline_data_full.
    destruct Hskip as [->|(ref & -> & [Hc|Hex])]; [reflexivity| |].
    + unfold local_candidate in Hc. now rewrite Hc.
    + change (normpath w (join w base_dir ref)) with (resolved ref).
      rewrite Hex. now destruct (_ && _).
  - unfold inline_data_full. rewrite lookup_insert_eq.
    pose proof (data_uri_not_candidate uri (to_data_uri_ok_data _ _ Huri)) as Hn.
    unfold local_candidate in Hn. now rewrite Hn.
  - unfold inline_data_full. rewrite Hdf.
    unfold local_candidate in Hc. rewrite Hc.
    change (normpath w (join w base_dir ref)) with (resolved ref).
    now rewrite Hex, Huri.
Qed.

Lemma inline_data_full_frame st img :
  let out := inline_data_full w base_dir st img in
  dom out.2 = dom img
  /\ (forall k, k <> "data-full" -> out.2 !! k = img !! k)
  /\ kept_or_data_uri (img !! "data-full") (out.2 !! "data-full")
  /\ changed out.1 = changed st
  /\ skipped out.1 = skipped st
  /\ exists more,
       printed out.1 = printed st ++ more
       /\ (length more <= 1)%nat
       /\ forallb warn_line more = true.
Proof.
  cbn zeta.
  destruct (inline_data_full_cases st img)
    as [Hskip | ref uri Hdf Hc Hex Huri | ref e Hdf Hc Hex Huri];
    cbn [fst snd print changed skipped printed].
  - repeat split; auto; [now left|].
    exists []. rewrite app_nil_r. repeat split; auto.
  - repeat split; auto.
    + apply dom_insert_present. rewrite Hdf. eauto.
    + intros k Hk. now rewrite lookup_insert_ne.
    + right. exists uri. rewrite lookup_insert_eq.
      split; [reflexivity|]. eapply to_data_uri_ok_data, Huri.
    + exists []. rewrite app_nil_r. repeat split; auto.
  - repeat split; auto; [now left|].
    eexists. split; [reflexivity|]. split; [cbn; lia|].
    cbn [forallb]. now rewrite warn_line_data_full.
Qed.

(** X4. The step of lines 68-75 touches nothing but the value of
    [data-full]: the attribute names and every other attribute stay, the
    value is kept or becomes a [data:] URI, the counters stay, and at most
    one line, a warning, is printed after what was printed before. *)
Theorem data_full_step_frame st img :
  let out := inline_data_full w base_dir st img in
  dom out.2 = dom img
  /\ (forall k, k <> "data-full" -> out.2 !! k = img !! k)
  /\ kept_or_data_uri (img !! "data-full") (out.2 !! "data-full")
  /\ changed out.1 = changed st
  /\ skipped out.1 = skipped st
  /\ exists more,
       printed out.1 = printed st ++ more
       /\ (length more <= 1)%nat
       /\ forallb warn_line more = true.
Proof. apply inline_data_full_frame. Qed.

(** X5. A [data-full] that is absent, empty, remote or a [data:] URI, or
    whose resolved path does not exist, is passed over in silence: state
    and element stay as they are (a missing file gets no warning here,
    unlike for [src]). *)
Theorem data_full_passed_over_silently st img :
  img !! "data-full" = None
  \/ (exists ref, img !! "data-full" = Some ref
                  /\ (local_candidate ref = false
                      \/ path_exists w (resolved ref) = false)) ->
  inline_data_full w base_dir st img = (st, img).
Proof.
  intros H. unfold inline_data_full.
  destruct H as [->|(ref & -> & [Hc|Hex])]; [reflexivity| |].
  - unfold local_candidate in Hc. now rewrite Hc.
  - change (normpath w (join w base_dir ref)) with (resolved ref).
    rewrite Hex. now destruct (_ && _).
Qed.

(** X6. When [to_data_uri] raises on the existing file a local
    [data-full] resolves to, the exception is caught: one warning with
    the resolved path and the exception's text is printed, and the
    element and the counters stay as they are. *)
Theorem data_full_failure_warned st img ref e :
  img !! "data-full" = Some ref ->
  local_candidate ref = true ->
  path_exists w (resolved ref) = true ->
  to_data_uri w (resolved ref) = Raise e ->
  inline_data_full w base_dir st img
  = ({| changed := changed st; skipped := skipped st;
        printed := printed st
                   ++ ["[warn] failed to inline data-full " +:+ resolved ref
                       +:+ ": " +:+ e] |}, img).
Proof.
  intros Hdf Hc Hex Huri. unfold inline_data_full. rewrite Hdf.
  unfold local_candidate in Hc. rewrite Hc.
  change (normpath w (join w base_dir ref)) with (resolved ref).
  now rewrite Hex, Huri.
Qed.

(** X7. Running the [data-full] step again on its own result, in the same
    world, changes nothing more in the element. *)
Theorem data_full_step_idempotent st st2 img :
  let once := (inline_data_full w base_dir st img).2 in
  (inline_data_full w base_dir st2 once).2 = once.
Proof. apply inline_data_full_again. Qed.

(** *** The body of the loop, case by case *)

Lemma process_img_cases st img :
  src_case st img (process_img w base_dir st img).
Proof.
  destruct (img !! "src") as [src|] eqn:Hsrc.
  2:{ rewrite process_img_continue by now left.
      apply SrcPassedOver. now left. }
  destruct (truthy src) eqn:Ht.
  2:{ assert (src = EmptyString) as ->.
      { unfold truthy in Ht. apply negb_false_iff in Ht.
        now apply String.eqb_eq in Ht. }
      rewrite process_img_continue by (right; now left).
      apply SrcPassedOver. right; now left. }
  destruct (startswith src "data:") eqn:Hd.
  { rewrite process_img_continue by (right; right; eauto).
    apply SrcPassedOver. right; right; eauto. }
  destruct (startswith src "http://") eqn:H1.
  { rewrite (process_img_remote w base_dir st img src) by auto.
    apply (SrcRemote w base_dir st img src); auto. }
  destruct (startswith src "https://") eqn:H2.
  { rewrite (process_img_remote w base_dir st img src) by auto.
    apply (SrcRemote w base_dir st img src); auto. }
  assert (Hc : local_candidate src = true).
  { unfold local_candidate, startswith_any. cbn [existsb].
    now rewrite Ht, H1, H2, Hd. }
  rewrite (process_img_local w base_dir st img src Hsrc Hc).
  destruct (path_exists w (resolved src)) eqn:Hex; cbn [negb].
  - destruct (to_data_uri w (resolved src)) as [uri|e] eqn:Huri.
    + now apply (SrcInlined w base_dir st img src uri).
    + now apply (SrcFailed w base_dir st img src e).
  - now apply (SrcMissing w base_dir st img src).
Qed.

Lemma warn_line_not_found src :
  warn_line (not_found_warning w base_dir src) = true.
Proof.
  unfold warn_line, startswith, not_found_warning.
  change ("[warn] file not found for <img src='" +:+ src +:+ "'> -> "
          +:+ resolved src)
    with ("[warn] " +:+ "file not found for <img src='" +:+ src
          +:+ "'> -> " +:+ resolved src).
  apply prefix_append.
Qed.

Lemma warn_line_failed src e :
  warn_line (failed_warning w base_dir src e) = true.
Proof.
  unfold warn_line, startswith, failed_warning.
  change ("[warn] failed to inline " +:+ resolved src +:+ ": " +:+ e)
    with ("[warn] " +:+ "failed to inline " +:+ resolved src +:+ ": " +:+ e).
  apply prefix_append.
Qed.

Lemma element_frame_refl (img : tag) : element_frame img img.
Proof. repeat split; auto; now left. Qed.

Lemma element_frame_data_full st img :
  element_frame img (inline_data_full w base_dir st img).2.
Proof.
  destruct (inline_data_full_frame st img) as (Hdom & Hk & Hdf & _).
  repeat split; auto.
  left. apply Hk. discriminate.
Qed.

Lemma process_img_element_frame st img :
  element_frame img (process_img w base_dir st img).2.
Proof.
  destruct (process_img_cases st img)
    as [H | src Hsrc Hr | src Hsrc Hc Hex | src uri Hsrc Hc Hex Huri
        | src e Hsrc Hc Hex Huri]; cbn [snd];
    try apply element_frame_refl.
  - destruct (inline_data_full_frame (incr_changed st) (<["src" := uri]> img))
      as (Hdom & Hk & Hdf & _).
    repeat split.
    + rewrite Hdom. apply dom_insert_present. rewrite Hsrc. eauto.
    + intros k Hk1 Hk2. rewrite Hk by assumption. now rewrite lookup_insert_ne.
    + right. exists uri. rewrite Hk by discriminate.
      rewrite lookup_insert_eq. split; [reflexivity|].
      eapply to_data_uri_ok_data, Huri.
    + now rewrite lookup_insert_ne in Hdf by discriminate.
  - apply element_frame_data_full.
Qed.

Lemma process_img_printed st img :
  exists more,
    printed (process_img w base_dir st img).1 = printed st ++ more
    /\ (length more <= 2)%nat
    /\ forallb warn_line more = true.
Proof.
  destruct (process_img_cases st img)
    as [H | src Hsrc Hr | src Hsrc Hc Hex | src uri Hsrc Hc Hex Huri
        | src e Hsrc Hc Hex Huri]; cbn [fst].
  - exists []. rewrite app_nil_r. repeat split; auto.
  - exists []. rewrite app_nil_r. repeat split; auto.
  - eexists. split; [reflexivity|]. split; [cbn; lia|].
    cbn [forallb]. now rewrite warn_line_not_found.
  - destruct (inline_data_full_frame (incr_changed st) (<["src" := uri]> img))
      as (_ & _ & _ & _ & _ & more & Hpr & Hlen & Hw).
    exists more. rewrite Hpr. repeat split; auto.
  - destruct (inline_data_full_frame
                (incr_skipped (print (failed_warning w base_dir src e) st)) img)
      as (_ & _ & _ & _ & _ & more & Hpr & Hlen & Hw).
    exists (failed_warning w base_dir src e :: more). rewrite Hpr.
    cbn [printed incr_skipped print]. rewrite <- app_assoc.
    split; [reflexivity|]. split; [cbn [length]; lia|].
    cbn [forallb]. now rewrite warn_line_failed.
Qed.

Lemma process_img_tally st img :
  let out := process_img w base_dir st img in
  changed out.1
  = changed st + (if src_rewritten img out.2 then 1 else 0)
  /\ changed out.1 + skipped out.1
     = changed st + skipped st + (if src_to_handle img then 1 else 0).
Proof.
  cbn zeta. unfold src_rewritten, src_to_handle.
  destruct (process_img_cases st img)
    as [H | src Hsrc Hr | src Hsrc Hc Hex | src uri Hsrc Hc Hex Huri
        | src e Hsrc Hc Hex Huri]; cbn [fst snd].
  - rewrite bool_decide_eq_true_2 by reflexivity.
    destruct H as [->|[->|(s & -> & Hs)]]; cbn [from_option id negb].
    + cbn. lia.
    + cbn. lia.
    + rewrite Hs, orb_true_r. cbn. lia.
  - rewrite bool_decide_eq_true_2 by reflexivity.
    destruct (remote_not_excluded_earlier src Hr) as [Ht Hd].
    rewrite Hsrc. cbn [from_option id]. rewrite Ht, Hd. cbn. lia.
  - rewrite bool_decide_eq_true_2 by reflexivity.
    destruct (local_candidate_tests src Hc) as (Ht & Hd & _).
    rewrite Hsrc. cbn [from_option id]. rewrite Ht, Hd. cbn. lia.
  - destruct (local_candidate_tests src Hc) as (Ht & Hd & _).
    destruct (inline_data_full_counters w base_dir (incr_changed st)
                (<["src" := uri]> img)) as [-> ->].
    rewrite inline_data_full_src, lookup_insert_eq.
    rewrite bool_decide_eq_false_2.
    + rewrite Hsrc. cbn [from_option id]. rewrite Ht, Hd. cbn. lia.
    + rewrite Hsrc. intros [= ->].
      rewrite (to_data_uri_ok_data _ _ Huri) in Hd. discriminate.
  - destruct (local_candidate_tests src Hc) as (Ht & Hd & _).
    destruct (inline_data_full_counters w base_dir
                (incr_skipped (print (failed_warning w base_dir src e) st))
                img) as [-> ->].
    rewrite inline_data_full_src.
    rewrite bool_decide_eq_true_2 by reflexivity.
    rewrite Hsrc. cbn [from_option id]. rewrite Ht, Hd. cbn. lia.
Qed.

Lemma process_img_again st st2 img :
  let first := process_img w base_dir st img in
  let second := process_img w base_dir st2 first.2 in
  second.2 = first.2
  /\ changed second.1 = changed st2
  /\ skipped second.1 - skipped st2 = skipped first.1 - skipped st.
Proof.
  cbn zeta.
  destruct (process_img_cases st img)
    as [H | src Hsrc Hr | src Hsrc Hc Hex | src uri Hsrc Hc Hex Huri
        | src e Hsrc Hc Hex Huri]; cbn [fst snd].
  - rewrite process_img_continue by assumption. cbn. repeat split; lia.
  - rewrite (process_img_remote w base_dir st2 img src) by assumption.
    cbn. repeat split; lia.
  - rewrite (process_img_local w base_dir st2 img src), Hex by assumption.
    cbn. repeat split; lia.
  - destruct (inline_data_full_counters w base_dir (incr_changed st)
                (<["src" := uri]> img)) as [_ Hsk].
    rewrite Hsk. rewrite process_img_continue.
    + cbn. repeat split; lia.
    + right; right. exists uri.
      rewrite inline_data_full_src, lookup_insert_eq.
      split; [reflexivity|]. eapply to_data_uri_ok_data, Huri.
  - set (st1 := incr_skipped (print (failed_warning w base_dir src e) st)).
    destruct (inline_data_full_counters w base_dir st1 img) as [_ Hsk].
    rewrite Hsk.
    rewrite (process_img_local w base_dir st2 _ src), Hex, Huri;
      [|now rewrite inline_data_full_src|assumption].
    cbn [negb]. rewrite inline_data_full_again.
    match goal with
    | |- context [inline_data_full w base_dir ?s ?i] =>
        destruct (inline_data_full_counters w base_dir s i) as [-> ->]
    end.
    cbn. repeat split; lia.
Qed.

(** X8. An element whose [src] and [data-full] are both local files that
    can be read has both inlined, and counts once: [changed] goes up by
    one, [skipped] stays, nothing is printed. *)
Theorem src_and_data_full_count_once st img src ref b1 b2 :
  img !! "src" = Some src ->
  local_candidate src = true ->
  path_exists w (resolved src) = true ->
  read_bytes w (resolved src) = Ok b1 ->
  img !! "data-full" = Some ref ->
  local_candidate ref = true ->
  path_exists w (resolved ref) = true ->
  read_bytes w (resolved ref) = Ok b2 ->
  process_img w base_dir st img
  = ({| changed := changed st + 1; skipped := skipped st;
        printed := printed st |},
     <["data-full" := data_uri (mime_of w (resolved ref))
                        (string_of_list_byte (Base64.b64encode b2))]>
       (<["src" := data_uri (mime_of w (resolved src))
                     (string_of_list_byte (Base64.b64encode b1))]> img)).
Proof.
  intros Hsrc Hc Hex Hrd Hdf Hc' Hex' Hrd'.
  rewrite (process_img_local w base_dir st img src Hsrc Hc), Hex.
  cbn [negb]. rewrite (to_data_uri_read_ok w _ b1 Hrd).
  unfold inline_data_full. rewrite lookup_insert_ne by discriminate.
  rewrite Hdf. unfold local_candidate in Hc'. rewrite Hc'.
  change (normpath w (join w base_dir ref)) with (resolved ref).
  now rewrite Hex', (to_data_uri_read_ok w _ b2 Hrd').
Qed.

(** *** The whole loop *)

Lemma pass_frame_printed imgs :
  forall st,
    exists more,
      printed (process_imgs w base_dir st imgs).1 = printed st ++ more
      /\ forallb warn_line more = true.
Proof.
  induction imgs as [|img rest IH]; intros st.
  - exists []. cbn. now rewrite app_nil_r.
  - rewrite process_imgs_cons. cbn [fst snd].
    destruct (IH (process_img w base_dir st img).1) as (more2 & Hpr2 & Hw2).
    destruct (process_img_printed st img) as (more1 & Hpr1 & _ & Hw1).
    exists (more1 ++ more2). rewrite Hpr2, Hpr1, <- app_assoc.
    now rewrite forallb_app, Hw1, Hw2.
Qed.

(** X9. The loop returns as many elements as it was given, in the same
    order, each with the attribute names it had; only [src] and
    [data-full] may differ, and each of them is either kept or a [data:]
    URI.  What was printed before stays, and what is added are warnings,
    at most two for each element. *)
Theorem pass_frame imgs :
  forall st,
    let out := process_imgs w base_dir st imgs in
    Forall2 element_frame imgs out.2
    /\ exists more,
         printed out.1 = printed st ++ more
         /\ (length more <= 2 * length imgs)%nat
         /\ forallb warn_line more = true.
Proof.
  induction imgs as [|img rest IH]; intros st; cbn zeta.
  - split; [constructor|]. exists []. cbn. now rewrite app_nil_r.
  - rewrite process_imgs_cons. cbn [fst snd].
    destruct (IH (process_img w base_dir st img).1) as (Hall & more2 & Hpr2 & Hlen2 & Hw2).
    destruct (process_img_printed st img) as (more1 & Hpr1 & Hlen1 & Hw1).
    split.
    + constructor; [apply process_img_element_frame | exact Hall].
    + exists (more1 ++ more2). rewrite Hpr2, Hpr1, <- app_assoc.
      split; [reflexivity|]. rewrite length_app, forallb_app, Hw1, Hw2.
      split; [cbn [length]; lia | reflexivity].
Qed.

(** X10. What the counters count: [changed] goes up by the number of
    elements whose [src] came out different, and [changed + skipped] by
    the number of elements whose [src] is present, not empty and not a
    [data:] URI, each of which is counted exactly once. *)
Theorem pass_counts imgs :
  forall st,
    let out := process_imgs w base_dir st imgs in
    changed out.1 = changed st + count_rewritten imgs out.2
    /\ changed out.1 + skipped out.1
       = changed st + skipped st + count_to_handle imgs.
Proof.
  induction imgs as [|img rest IH]; intros st; cbn zeta.
  - unfold count_to_handle. cbn. lia.
  - rewrite process_imgs_cons. cbn [fst snd count_rewritten].
    destruct (IH (process_img w base_dir st img).1) as [Hch Hsum].
    destruct (process_img_tally st img) as [Hch1 Hsum1].
    unfold count_to_handle in *. cbn [List.filter].
    destruct (src_to_handle img); cbn [length] in *; lia.
Qed.

(** X11. Run over its own result in the same world, the loop changes no
    element and inlines nothing ([changed] does not move), and it skips
    exactly as many elements as the first time. *)
Theorem second_pass_in_same_world imgs :
  forall st st2,
    let first := process_imgs w base_dir st imgs in
    let second := process_imgs w base_dir st2 first.2 in
    second.2 = first.2
    /\ changed second.1 = changed st2
    /\ skipped second.1 - skipped st2 = skipped first.1 - skipped st.
Proof.
  induction imgs as [|img rest IH]; intros st st2; cbn zeta.
  - cbn. repeat split; lia.
  - rewrite process_imgs_cons. cbn [fst snd].
    rewrite process_imgs_cons. cbn [fst snd].
    destruct (process_img_again st st2 img) as (Himg & Hch & Hsk).
    destruct (IH (process_img w base_dir st img).1
                (process_img w base_dir st2
                   (process_img w base_dir st img).2).1)
      as (Hrest & Hch2 & Hsk2).
    rewrite Himg, Hrest. repeat split; lia.
Qed.

End Coverage.

(** ** More on [main] *)

Section MainCoverage.
Import World Inliner Tally.
Context (w : World.t).

Lemma main_cases argv :
  let in_path := nth 1 argv EmptyString in
  let out_path := nth 2 argv EmptyString in
  ((length argv < 3)%nat
   /\ main w argv
      = {| stdout := [usage]; ending := Exited 1; written := [] |})
  \/ ((3 <= length argv)%nat /\ path_exists w in_path = false
      /\ main w argv
         = {| stdout := ["Error: input not found: " +:+ in_path];
              ending := Exited 2; written := [] |})
  \/ (exists e,
        (3 <= length argv)%nat /\ path_exists w in_path = true
        /\ read_text w in_path = Raise e
        /\ main w argv
           = {| stdout := []; ending := Uncaught e; written := [] |})
  \/ (exists html,
        (3 <= length argv)%nat /\ path_exists w in_path = true
        /\ read_text w in_path = Ok html
        /\ let out := process_imgs w (dirname w (abspath w in_path)) init
                        (find_all_img w html) in
           let page := soup_str w html out.2 in
           (exists e,
              write_text w out_path page = OpenFailed e
              /\ main w argv
                 = {| stdout := printed out.1; ending := Uncaught e;
                      written := [] |})
           \/ (exists e remains,
                 write_text w out_path page = WriteFailed e remains
                 /\ main w argv
                    = {| stdout := printed out.1; ending := Uncaught e;
                         written := [(out_path, remains)] |})
           \/ (write_text w out_path page = Wrote
               /\ main w argv
                  = {| stdout := printed out.1 ++
                         [ "Done. Inlined images: " +:+ pretty (changed out.1)
                           +:+ ", skipped: " +:+ pretty (skipped out.1);
                           "Written: " +:+ out_path ];
                       ending := Exited 0;
                       written := [(out_path, page)] |})).
Proof.
  cbn zeta. unfold main.
  destruct (Nat.ltb_spec (length argv) 3) as [Hlen|Hlen]; [left; auto|].
  right.
  destruct (path_exists w (nth 1 argv EmptyString)) eqn:Hex; cbn [negb];
    [|left; auto].
  right.
  destruct (read_text w (nth 1 argv EmptyString)) as [html|e] eqn:Hrd;
    [|left; eauto].
  right. exists html. repeat (split; [assumption || reflexivity|]).
  destruct (process_imgs w _ init (find_all_img w html)) as [st imgs].
  cbn [fst snd].
  destruct (write_text w _ _) as [|e|e remains] eqn:Hwr.
  - right; right. auto.
  - left. eauto.
  - right; left. eauto.
Qed.

Ltac main_by_cases argv :=
  destruct (main_cases argv)
    as [(Hlen & ->) | [(Hlen & Hex & ->) | [(e' & Hlen & Hex & Hrd & ->)
        | (html & Hlen & Hex & Hrd
           & [(e' & Hwr & ->) | [(e' & remains & Hwr & ->) | (Hwr & ->)]])]]];
  cbn [ending stdout written exit_code].

(** X12. The exit status of [main] is 0, 1 or 2.  It is 2 exactly when
    there are enough arguments and the input path does not exist, and 0
    exactly when the run reached its end.  It is 1 both for too few
    arguments and for an exception nobody catches, so that status 1 does
    not tell a wrong command line from a failed read or write.  The run
    touches at most one file, the one named by the second argument, and
    only after it has read the input; after exit status 0 that file is
    there. *)
Theorem main_exit_status_and_files argv :
  let r := main w argv in
  let code := exit_code (ending r) in
  (code = 0 \/ code = 1 \/ code = 2)
  /\ (code = 2 <->
      (3 <= length argv)%nat
      /\ path_exists w (nth 1 argv EmptyString) = false)
  /\ (code = 1 <->
      (length argv < 3)%nat \/ exists e, ending r = Uncaught e)
  /\ (code = 0 <-> ending r = Exited 0)
  /\ (ending r = Exited 0 -> written r <> [])
  /\ (length (written r) <= 1)%nat
  /\ (forall path content, In (path, content) (written r) ->
                           path = nth 2 argv EmptyString)
  /\ (written r <> [] ->
      (3 <= length argv)%nat
      /\ path_exists w (nth 1 argv EmptyString) = true
      /\ exists html, read_text w (nth 1 argv EmptyString) = Ok html).
Proof.
  cbn zeta. main_by_cases argv; cbn [length In];
    (repeat split; intros; try discriminate; try lia; try tauto; eauto;
     try (exfalso; intuition (congruence || lia))).
  all: try match goal with
           | H : _ \/ False |- _ => destruct H as [[= <- _]|[]]; reflexivity
           end.
  all: try match goal with
           | H : _ \/ (exists e, _ = Uncaught e) |- _ =>
               destruct H as [H|[? [=]]]; lia
           end.
Qed.

(** X13. A run that ends with exit code 0 read the page, printed the
    warnings of the loop and then the two closing lines with the counters
    of the loop, and wrote the page with the elements the loop returned to
    the output path.  The counters reported are not negative and add up to
    at most the number of [img] elements of the page. *)
Theorem main_success_summary argv :
  ending (main w argv) = Exited 0 ->
  exists html,
    read_text w (nth 1 argv EmptyString) = Ok html
    /\ let out :=
         process_imgs w (dirname w (abspath w (nth 1 argv EmptyString)))
           init (find_all_img w html) in
       stdout (main w argv)
       = printed out.1 ++
         [ "Done. Inlined images: " +:+ pretty (changed out.1)
           +:+ ", skipped: " +:+ pretty (skipped out.1);
           "Written: " +:+ nth 2 argv EmptyString ]
       /\ forallb warn_line (printed out.1) = true
       /\ written (main w argv)
          = [(nth 2 argv EmptyString, soup_str w html out.2)]
       /\ 0 <= changed out.1
       /\ 0 <= skipped out.1
       /\ changed out.1 + skipped out.1
          <= Z.of_nat (length (find_all_img w html)).
Proof.
  main_by_cases argv; try discriminate.
  intros _. exists html. split; [assumption|]. cbn zeta.
  set (base := dirname w (abspath w (nth 1 argv EmptyString))).
  destruct (pass_frame_printed w base (find_all_img w html) init)
    as (more & Hpr & Hw).
  pose proof (process_imgs_counters w base (find_all_img w html) init) as Hb.
  cbn zeta in Hb. cbn [init changed skipped] in Hb.
  split; [reflexivity|]. split; [now rewrite Hpr|].
  split; [reflexivity|]. lia.
Qed.

(** X14. A run that ends in an exception nobody catches exits with
    status 1 and prints none of the closing lines: what it printed are the
    warnings of the loop, if it got that far.  The output file is left
    untouched, unless the failure came after the file was opened: then it
    is left with what had reached it, not with the page. *)
Theorem main_uncaught_exception argv e :
  ending (main w argv) = Uncaught e ->
  exit_code (ending (main w argv)) = 1
  /\ forallb warn_line (stdout (main w argv)) = true
  /\ (written (main w argv) = []
      \/ exists html remains,
           read_text w (nth 1 argv EmptyString) = Ok html
           /\ write_text w (nth 2 argv EmptyString)
                (soup_str w html
                   (process_imgs w
                      (dirname w (abspath w (nth 1 argv EmptyString)))
                      init (find_all_img w html)).2)
              = WriteFailed e remains
           /\ written (main w argv) = [(nth 2 argv EmptyString, remains)]).
Proof.
  main_by_cases argv; try discriminate; intros [= <-].
  - repeat split; auto.
  - destruct (pass_frame_printed w
                (dirname w (abspath w (nth 1 argv EmptyString)))
                (find_all_img w html) init)
      as (more & Hpr & Hw).
    rewrite Hpr. cbn [init printed app]. repeat split; auto.
  - destruct (pass_frame_printed w
                (dirname w (abspath w (nth 1 argv EmptyString)))
                (find_all_img w html) init)
      as (more & Hpr & Hw).
    rewrite Hpr. cbn [init printed app].
    split; [reflexivity|]. split; [assumption|].
    right. exists html, remains. auto.
Qed.

End MainCoverage.

(** *** The theorems of this part, at one input each *)

Section CoverageAtSite.
Import Inliner.

Lemma to_data_uri_result_shape_witness :
  to_data_uri Site.world "/site/logo.png"
  = Ok "data:image/png;base64,MDEyMzQ1Njc4OQ=="
  /\ exists b mime,
       World.read_bytes Site.world "/site/logo.png" = Ok b
       /\ "data:image/png;base64,MDEyMzQ1Njc4OQ=="
          = "data:" +:+ mime +:+ ";base64,"
            +:+ string_of_list_byte (Base64.b64encode b)
       /\ mime <> EmptyString.
Proof.
  split; [reflexivity|].
  destruct (to_data_uri_result_shape Site.world "/site/logo.png"
              "data:image/png;base64,MDEyMzQ1Njc4OQ==" eq_refl)
    as (b & mime & Hrd & Huri & Hne & _).
  exact (ex_intro _ b (ex_intro _ mime (conj Hrd (conj Huri Hne)))).
Defined.

Lemma to_data_uri_length_witness :
  World.read_bytes Site.world "/site/logo.png" = Ok Site.logo_png
  /\ String.length "data:image/png;base64,MDEyMzQ1Njc4OQ==" = 38%nat.
Proof.
  split; [reflexivity|].
  exact (to_data_uri_length Site.world "/site/logo.png"
           "data:image/png;base64,MDEyMzQ1Njc4OQ==" Site.logo_png
           eq_refl eq_refl).
Defined.

Lemma data_full_passed_over_silently_witness :
  let img : tag := {[ "data-full" := "gone.png" ]} in
  World.path_exists Site.world "/site/gone.png" = false
  /\ inline_data_full Site.world Site.base_dir init img = (init, img).
Proof.
  intros img. split; [reflexivity|].
  apply (data_full_passed_over_silently Site.world Site.base_dir init img).
  right. exists "gone.png". split; [reflexivity|]. right. reflexivity.
Defined.

Lemma data_full_failure_warned_witness :
  let img : tag := {[ "data-full" := "photos" ]} in
  inline_data_full Site.world Site.base_dir init img
  = ({| changed := 0; skipped := 0;
        printed :=
          ["[warn] failed to inline data-full /site/photos: [Errno 21] Is a directory: '/site/photos'"] |},
     img).
Proof.
  intros img.
  exact (data_full_failure_warned Site.world Site.base_dir init img "photos"
           "[Errno 21] Is a directory: '/site/photos'"
           eq_refl eq_refl eq_refl eq_refl).
Defined.

Lemma src_and_data_full_count_once_witness :
  let img := Site.gallery_img (Some "logo.png") in
  process_img Site.world Site.base_dir init img
  = ({| changed := 1; skipped := 0; printed := [] |},
     <["data-full" := Site.big_png_uri]>
       (<["src" := "data:image/png;base64,MDEyMzQ1Njc4OQ=="]> img)).
Proof.
  intros img.
  exact (src_and_data_full_count_once Site.world Site.base_dir init img
           "logo.png" "big.png" Site.logo_png Site.big_png
           eq_refl eq_refl eq_refl eq_refl eq_refl eq_refl eq_refl eq_refl).
Defined.

Lemma main_success_summary_witness :
  let argv := ["pack_to_single_html.py"; "page.html"; "page.single.html"] in
  ending (main Site.world argv) = Exited 0
  /\ exists html,
       World.read_text Site.world "page.html" = Ok html
       /\ stdout (main Site.world argv)
          = printed (process_imgs Site.world Site.base_dir init
                       (World.find_all_img Site.world html)).1
            ++ [ "Done. Inlined images: "
                 +:+ pretty (changed (process_imgs Site.world Site.base_dir
                                        init
                                        (World.find_all_img Site.world html)).1)
                 +:+ ", skipped: "
                 +:+ pretty (skipped (process_imgs Site.world Site.base_dir
                                        init
                                        (World.find_all_img Site.world html)).1);
                 "Written: page.single.html" ].
Proof.
  intros argv. split; [reflexivity|].
  destruct (main_success_summary Site.world argv eq_refl)
    as (html & Hrd & Hout & _).
  exact (ex_intro _ html (conj Hrd Hout)).
Defined.

Lemma main_uncaught_exception_witness :
  let argv := ["pack_to_single_html.py"; "page.html"; "out.html"] in
  let r := main Site.world_disk_full argv in
  ending r = Uncaught "[Errno 28] No space left on device"
  /\ exit_code (ending r) = 1
  /\ forallb Tally.warn_line (stdout r) = true
  /\ written r = [("out.html", EmptyString)].
Proof.
  intros argv r. split; [reflexivity|].
  destruct (main_uncaught_exception Site.world_disk_full argv
              "[Errno 28] No space left on device" eq_refl)
    as (Hcode & Hout & _).
  exact (conj Hcode (conj Hout eq_refl)).
Defined.

End CoverageAtSite.
